(** * Universal_Scrapper: the strategy race of [scrapper.py]

    A shallow embedding of the core of [scrapper.py]: the content
    validator, the retry mechanism, the scraping methods and the two
    drivers of [SinglePageScraper] (concurrent and sequential), with the
    properties of the specification proved or refuted on it.

    Conventions of the embedding.
    - A Python [str] is a list of characters.  Characters are the code
      points U+0000..U+00FF (the type [ascii] read as Latin-1); for these
      [str.isspace] and [str.lower] are written out below.  One "unit" of
      content is one character, as [len] counts them.
    - A Python value that is either a [str] or [None] is an [option str].
    - A call that may raise is an [outcome]: [Return v] or [Raise e], where
      [e] is an instance of [Exception] (the only class the handlers of the
      source name).
    - Delays are exact rationals; [random.uniform] is an oracle. *)

From Stdlib Require Import Ascii String.
From Stdlib Require Import List Bool Arith ZArith QArith Lia Lqa Permutation.
Import ListNotations.

Open Scope nat_scope.

(** ** Python strings *)

Module PyStr.

Definition str := list ascii.

(** A string literal of the source. *)
Definition lit (s : String.string) : str := String.list_ascii_of_string s.

(** [str.isspace] on one character of the Latin-1 range: the controls
    U+0009..U+000D and U+001C..U+001F, the space, U+0085 and U+00A0. *)
Definition is_space (c : ascii) : bool :=
  let n := nat_of_ascii c in
  ((9 <=? n) && (n <=? 13)) || ((28 <=? n) && (n <=? 32))
  || (n =? 133) || (n =? 160).

(** [str.lower] on one character of the Latin-1 range: A..Z and the
    accented capitals U+00C0..U+00DE (the multiplication sign U+00D7
    apart) move up by 32. *)
Definition lower_char (c : ascii) : ascii :=
  let n := nat_of_ascii c in
  if ((65 <=? n) && (n <=? 90))
     || ((192 <=? n) && (n <=? 222) && negb (n =? 215))
  then ascii_of_nat (n + 32) else c.

Definition lower (s : str) : str := map lower_char s.

Fixpoint lstrip (s : str) : str :=
  match s with
  | [] => []
  | c :: t => if is_space c then lstrip t else s
  end.

Definition rstrip (s : str) : str := rev (lstrip (rev s)).

(** [str.strip()] with no argument. *)
Definition strip (s : str) : str := rstrip (lstrip s).

Fixpoint startswith (p s : str) : bool :=
  match p, s with
  | [], _ => true
  | _ :: _, [] => false
  | a :: p', b :: s' => Ascii.eqb a b && startswith p' s'
  end.

(** [needle in hay] for strings. *)
Fixpoint contains (needle hay : str) : bool :=
  match hay with
  | [] => startswith needle []
  | _ :: t => startswith needle hay || contains needle t
  end.

(** Truthiness of a value that is a [str] or [None]. *)
Definition truthy (v : option str) : bool :=
  match v with
  | None => false
  | Some [] => false
  | Some (_ :: _) => true
  end.

End PyStr.
Import PyStr.

(** ** ContentValidator *)

Definition html_indicators : list str :=
  [lit "<html"; lit "<body"; lit "<div"; lit "<p"; lit "<span"]%string.

(** The test of the [any(...)] line, on the stripped content. *)
Definition has_indicator (content : str) : bool :=
  existsb (fun indicator => contains indicator (lower content)) html_indicators.

(** [ContentValidator.is_valid_content]. *)
Definition is_valid_content (content : option str) : bool :=
  if negb (truthy content) then false
  else
    match content with
    | None => false
    | Some c =>
        let content := strip c in
        if length content <? 100 then false
        else if has_indicator content then true
        else if 500 <? length content then true
        else false
    end.

(** ** Exceptions, outcomes and logged computations *)

(** An instance of [Exception]: its class and the text of [str(e)]. *)
Record exn := Exception { exn_class : str; exn_message : str }.

Inductive outcome (A : Type) : Type :=
| Return (v : A)
| Raise (e : exn).
Arguments Return {A} v.
Arguments Raise {A} e.

(** A computation that leaves a trace of events of type [E] and either
    returns or raises. *)
Module Logged.

Definition M (E A : Type) : Type := (outcome A * list E)%type.

Definition ret {E A} (v : A) : M E A := (Return v, []).
Definition emit {E} (e : E) : M E unit := (Return tt, [e]).

Definition bind {E A B} (m : M E A) (k : A -> M E B) : M E B :=
  match m with
  | (Return v, tr) => let (r, tr') := k v in (r, tr ++ tr')
  | (Raise e, tr) => (Raise e, tr)
  end.

(** [try: body  except Exception as e: handler e]. *)
Definition try_except {E A} (body : M E A) (handler : exn -> M E A) : M E A :=
  match body with
  | (Return v, tr) => (Return v, tr)
  | (Raise e, tr) => let (r, tr') := handler e in (r, tr ++ tr')
  end.

(** [try: body  finally: cleanup]: the cleanup runs on both exits; an
    exception of the cleanup replaces the pending result. *)
Definition finally {E A} (body : M E A) (cleanup : M E unit) : M E A :=
  match cleanup with
  | (Return _, tr') => (fst body, snd body ++ tr')
  | (Raise e, tr') => (Raise e, snd body ++ tr')
  end.

End Logged.

Notation "x <- m ;; k" := (Logged.bind m (fun x => k))
  (at level 61, m at next level, right associativity).
Notation "m ;;; k" := (Logged.bind m (fun _ => k))
  (at level 61, right associativity).

(** ** RetryMechanism *)

Record RetryMechanism := { max_retries : Z; base_delay : Q }.

(** [RetryMechanism.__init__(self, max_retries=3, base_delay=1)]. *)
Definition RetryMechanism_init (max_retries : option Z) (base_delay : option Q)
  : RetryMechanism :=
  {| max_retries := match max_retries with Some n => n | None => 3%Z end;
     base_delay := match base_delay with Some d => d | None => 1%Q end |}.

Inductive retry_event : Type :=
| Attempt (attempt : nat)              (* the wrapped [func] is called *)
| Sleep (attempt : nat) (delay : Q).   (* the "Retry ..." line, then [time.sleep(delay)] *)

Section Retry.

Variable self : RetryMechanism.
(** The wrapped call: what its [attempt]-th invocation does. *)
Variable func : nat -> outcome (option str).
(** What [random.uniform(0, 1)] yields in iteration [attempt]. *)
Variable jitter : nat -> Q.

(** [self.base_delay * (2 ** attempt) + random.uniform(0, 1)]. *)
Definition backoff_delay (attempt : nat) : Q :=
  (base_delay self * inject_Z (2 ^ Z.of_nat attempt) + jitter attempt)%Q.

Inductive iteration : Type :=
| Returned (v : option str)   (* [return func(...)] *)
| Reraised (e : exn)          (* [raise e] on the last attempt *)
| Backoff (delay : Q).        (* sleep, then the next iteration *)

(** The body of the [for] loop. *)
Definition retry_iteration (attempt : nat) : iteration :=
  match func attempt with
  | Return v => Returned v
  | Raise e =>
      if (Z.of_nat attempt =? max_retries self)%Z then Reraised e
      else Backoff (backoff_delay attempt)
  end.

(** The [for attempt in range(...)] loop with [remaining] iterations left;
    when the range is used up the function falls through to [return None]. *)
Fixpoint retry_loop (remaining attempt : nat)
  : outcome (option str) * list retry_event :=
  match remaining with
  | O => (Return None, [])
  | S remaining' =>
      match retry_iteration attempt with
      | Returned v => (Return v, [Attempt attempt])
      | Reraised e => (Raise e, [Attempt attempt])
      | Backoff d =>
          let (r, tr) := retry_loop remaining' (S attempt) in
          (r, Attempt attempt :: Sleep attempt d :: tr)
      end
  end.

(** [RetryMechanism.retry_with_backoff]. *)
Definition retry_with_backoff : outcome (option str) * list retry_event :=
  retry_loop (Z.to_nat (max_retries self + 1)) 0.

End Retry.

Definition attempts (tr : list retry_event) : list nat :=
  flat_map (fun ev => match ev with Attempt k => [k] | Sleep _ _ => [] end) tr.

Definition sleeps (tr : list retry_event) : list Q :=
  flat_map (fun ev => match ev with Attempt _ => [] | Sleep _ d => [d] end) tr.

(** ** The scraping methods *)

Inductive variant : Type :=
| SimpleRequestsMethod | RequestsWithHeadersMethod | HTTPXMethod
| CloudScraperMethod | CloudScraperWithHeadersMethod | RequestsHTMLMethod
| SeleniumMethod | SeleniumStealthMethod | CookiePersistentMethod
| TorRequestsMethod | SlowRequestsMethod | MultipleHeadersMethod
| BrowserMimicMethod.

Definition method_name (v : variant) : str :=
  match v with
  | SimpleRequestsMethod => lit "Simple Requests"
  | RequestsWithHeadersMethod => lit "Requests with Headers"
  | HTTPXMethod => lit "HTTPX HTTP/2"
  | CloudScraperMethod => lit "CloudScraper"
  | CloudScraperWithHeadersMethod => lit "CloudScraper with Headers"
  | RequestsHTMLMethod => lit "Requests-HTML"
  | SeleniumMethod => lit "Selenium WebDriver"
  | SeleniumStealthMethod => lit "Selenium Stealth Mode"
  | CookiePersistentMethod => lit "Cookie Persistent Session"
  | TorRequestsMethod => lit "Tor Network Requests"
  | SlowRequestsMethod => lit "Slow Requests (Anti-Rate-Limit)"
  | MultipleHeadersMethod => lit "Multiple Headers"
  | BrowserMimicMethod => lit "Browser Mimic"
  end.

(** The modules imported under [try: ... except ImportError]. *)
Inductive dependency : Type := httpx | HTMLSession | stealth.

(** The guard at the head of [scrape], where there is one. *)
Definition optional_dependency (v : variant) : option dependency :=
  match v with
  | HTTPXMethod => Some httpx
  | RequestsHTMLMethod => Some HTMLSession
  | SeleniumStealthMethod => Some stealth
  | _ => None
  end.

(** The variants whose [scrape] owns a browser and has a [finally] block. *)
Definition uses_driver (v : variant) : bool :=
  match v with
  | SeleniumMethod | SeleniumStealthMethod => true
  | _ => false
  end.

(** What the libraries do during one call of [scrape]: the result of the
    statements of the [try] block after the first [print], whether
    [webdriver.Chrome] had returned a driver by then, and what
    [driver.quit()] does. *)
Record transport := {
  body_result : outcome str;
  driver_started : bool;
  quit_result : outcome unit
}.

Inductive scrape_event : Type :=
| Skipped (v : variant)                 (* "... skipped: ... not installed" *)
| Trying (v : variant)                  (* "Trying: ... method..." *)
| Retrieval (v : variant) (url : str)   (* the requests of the [try] block *)
| FailedMsg (v : variant) (e : exn)     (* "... failed: ..." *)
| DriverQuit (v : variant).             (* [driver.quit()] *)

Section Scrape.

(** Which optional modules were imported. *)
Variable installed : dependency -> bool.

Definition unavailable (v : variant) : bool :=
  match optional_dependency v with
  | Some d => negb (installed d)
  | None => false
  end.

(** The [try] block of [scrape]. *)
Definition scrape_body (t : transport) (v : variant) (url : str)
  : Logged.M scrape_event (option str) :=
  Logged.emit (Trying v) ;;;
  Logged.emit (Retrieval v url) ;;;
  text <- (body_result t, []) ;;
  Logged.ret (Some text).

(** The [finally] block of the two Selenium variants. *)
Definition scrape_cleanup (t : transport) (v : variant)
  : Logged.M scrape_event unit :=
  if driver_started t then
    Logged.try_except
      (Logged.emit (DriverQuit v) ;;; (quit_result t, []))
      (fun _ => Logged.ret tt)
  else Logged.ret tt.

(** [scrape(self, url)] of the variant [v]. *)
Definition scrape (t : transport) (v : variant) (url : str)
  : Logged.M scrape_event (option str) :=
  if unavailable v then
    Logged.emit (Skipped v) ;;; Logged.ret None
  else
    let guarded :=
      Logged.try_except (scrape_body t v url)
        (fun e => Logged.emit (FailedMsg v e) ;;; Logged.ret None) in
    if uses_driver v then Logged.finally guarded (scrape_cleanup t v)
    else guarded.

End Scrape.

(** [SinglePageScraper._initialize_methods]. *)
Definition _initialize_methods (aggressive_mode : bool) : list variant :=
  [SimpleRequestsMethod; RequestsWithHeadersMethod; HTTPXMethod;
   CloudScraperMethod; CloudScraperWithHeadersMethod; RequestsHTMLMethod;
   SeleniumMethod; SeleniumStealthMethod; CookiePersistentMethod;
   TorRequestsMethod]
  ++ (if aggressive_mode
      then [SlowRequestsMethod; MultipleHeadersMethod; BrowserMimicMethod]
      else []).

(** ** The race *)

(** A scraping method as the drivers see it: its name, and what the
    [k]-th call of [self._scrape_with_method(method, url)] does (the
    rotation of the user agent and the short random pause of that
    function touch nothing the drivers read). *)
Record ScrapingMethod := {
  name : str;
  _scrape_with_method : nat -> outcome (option str)
}.

(** A built-in variant as a [ScrapingMethod], given what the libraries do
    on each call. *)
Definition builtin (installed : dependency -> bool) (net : nat -> transport)
    (url : str) (v : variant) : ScrapingMethod :=
  {| name := method_name v;
     _scrape_with_method := fun k => fst (scrape installed (net k) v url) |}.

(** [self.methods] of a [SinglePageScraper]. *)
Definition SinglePageScraper_methods (installed : dependency -> bool)
    (net : nat -> transport) (url : str) (aggressive_mode : bool)
  : list ScrapingMethod :=
  map (builtin installed net url) (_initialize_methods aggressive_mode).

Record config := {
  retry_mechanism : RetryMechanism;
  methods : list ScrapingMethod;
  (** [uniform i k]: the jitter drawn for method [i] in iteration [k]. *)
  uniform : nat -> nat -> Q;
  url : str;
  save_to_file : option str
}.

(** The retry loop of method [m], the [i]-th of the list. *)
Definition retried (cfg : config) (i : nat) (m : ScrapingMethod)
  : outcome (option str) * list retry_event :=
  retry_with_backoff (retry_mechanism cfg) (_scrape_with_method m) (uniform cfg i).

Inductive race_event : Type :=
| Header (i : nat)                          (* "[Method i/n] name" *)
| Starting (i : nat)                        (* " Starting name..." *)
| Retry (i : nat) (ev : retry_event)        (* what the retry loop of method [i] does *)
| Success (i : nat) (content : option str)  (* " SUCCESS with name!" *)
| TooShort (i : nat)                        (* "... returned content but it's too short" *)
| NoContent (i : nat)                       (* "... returned no content" *)
| FailedCompletely (i : nat) (e : exn)      (* "... failed completely: ..." *)
| FirstSuccess (i : nat) (content : option str)  (* " FIRST SUCCESS: name" *)
| InvalidContent (i : nat)                  (* " name: Invalid content" *)
| Failure (i : nat) (e : exn)               (* " name: str(e)" *)
| Saved (filename : str) (content : option str)  (* [file_manager.save_content] *)
| ConcurrentSuccess (winner : option str)   (* " CONCURRENT SUCCESS with ...!" *)
| AllFailed                                 (* " All concurrent methods failed" *)
| Critical.                                 (* " CRITICAL: All methods exhausted ..." *)

Definition save (cfg : config) (content : option str) : list race_event :=
  match save_to_file cfg with
  | Some filename => if truthy (Some filename) then [Saved filename content] else []
  | None => []
  end.

(** The method a diagnostic line is about: the lines that report that a
    method ended without a usable result. *)
Definition diagnostic (ev : race_event) : list nat :=
  match ev with
  | TooShort i | NoContent i | FailedCompletely i _
  | InvalidContent i | Failure i _ => [i]
  | _ => []
  end.

Definition diagnostics (log : list race_event) : list nat :=
  flat_map diagnostic log.

(** The methods whose retry loop made at least one call. *)
Definition invoked (log : list race_event) : list nat :=
  flat_map (fun ev => match ev with Retry i (Attempt _) => [i] | _ => [] end) log.

(** *** Sequential mode *)

(** The [for method_index, method in enumerate(self.methods, 1)] loop of
    [_scrape_sequential], from index [method_index] on. *)
Fixpoint sequential_loop (cfg : config) (method_index : nat)
    (rest : list ScrapingMethod) : option str * list race_event :=
  match rest with
  | [] => (None, [Critical])
  | method :: rest' =>
      let (r, tr) := retried cfg method_index method in
      let head := Header method_index :: map (Retry method_index) tr in
      match r with
      | Return content =>
          if is_valid_content content then
            (content, head ++ Success method_index content :: save cfg content)
          else
            let (r', tr') := sequential_loop cfg (S method_index) rest' in
            (r', head ++ (if truthy content then TooShort method_index
                          else NoContent method_index) :: tr')
      | Raise e =>
          let (r', tr') := sequential_loop cfg (S method_index) rest' in
          (r', head ++ FailedCompletely method_index e :: tr')
      end
  end.

(** [SinglePageScraper._scrape_sequential]. *)
Definition _scrape_sequential (cfg : config) : option str * list race_event :=
  sequential_loop cfg 1 (methods cfg).

(** *** Concurrent mode

    The workers of the thread pool interleave.  A worker's steps are the
    pieces of [scrape_method_wrapper] between two points where it can be
    preempted with an effect on what the others see: the entry test, one
    iteration of the retry loop, one sleep, and the validation followed
    by the section under [success_lock].  A schedule is the list of the
    steps taken, in order; every interleaving is a schedule. *)

(** The dictionary [success_result]. *)
Record success_result := {
  content : option str;        (* ['content'] *)
  winner : option str          (* ['method_name'] *)
}.

(** Where the task of one method stands. *)
Inductive phase : Type :=
| Pending                                   (* submitted, not started *)
| Cancelled                                 (* [cancel()] came before its start *)
| InLoop (remaining attempt : nat)          (* at the head of the retry loop *)
| Sleeping (remaining attempt : nat) (delay : Q)  (* the attempt raised; about to sleep *)
| Retrieved (c : option str)                (* [retry_with_backoff] returned [c] *)
| Done (ret : option str).                  (* the wrapper returned [ret] *)

Record state := {
  slot : success_result;
  phases : nat -> phase;
  log : list race_event
}.

Inductive action : Type :=
| Run (i : nat)       (* the worker of task [i] takes its next step *)
| Cancel (i : nat).   (* the main thread calls [cancel()] on future [i] *)

Definition set_phase (i : nat) (p : phase) (st : state) : state :=
  {| slot := slot st;
     phases := fun j => if j =? i then p else phases st j;
     log := log st |}.

Definition say (evs : list race_event) (st : state) : state :=
  {| slot := slot st; phases := phases st; log := log st ++ evs |}.

Definition running (p : phase) : bool :=
  match p with
  | InLoop _ _ | Sleeping _ _ _ | Retrieved _ => true
  | Pending | Cancelled | Done _ => false
  end.

Definition terminal (p : phase) : bool :=
  match p with
  | Done _ | Cancelled => true
  | _ => false
  end.

Definition is_done (p : phase) : bool :=
  match p with Done _ => true | _ => false end.

Section Concurrent.

Variable cfg : config.

(** [max_workers = min(len(self.methods), 8)]. *)
Definition max_workers : nat := Nat.min (List.length (methods cfg)) 8.

Definition tasks : list nat := seq 0 (List.length (methods cfg)).

Definition active (st : state) : nat :=
  List.length (filter (fun i => running (phases st i)) tasks).

Definition some_done (st : state) : bool :=
  existsb (fun i => is_done (phases st i)) tasks.

(** The section under [success_lock], for a validated [c] of method [m]. *)
Definition commit (i : nat) (m : ScrapingMethod) (c : option str) (st : state)
  : state :=
  if negb (truthy (content (slot st))) then
    say [FirstSuccess i c]
      {| slot := {| content := c; winner := Some (name m) |};
         phases := phases st; log := log st |}
  else st.

(** One step of the worker of task [i], which runs method [m]. *)
Definition worker_step (i : nat) (m : ScrapingMethod) (st : state)
  : option state :=
  match phases st i with
  | Pending =>
      if active st <? max_workers then
        if truthy (content (slot st)) then
          Some (set_phase i (Done None) st)
        else
          Some (say [Starting i]
                  (set_phase i
                     (InLoop (Z.to_nat (max_retries (retry_mechanism cfg) + 1)) 0)
                     st))
      else None
  | InLoop O _ => Some (set_phase i (Retrieved None) st)
  | InLoop (S remaining) attempt =>
      match retry_iteration (retry_mechanism cfg) (_scrape_with_method m)
              (uniform cfg i) attempt with
      | Returned v =>
          Some (say [Retry i (Attempt attempt)] (set_phase i (Retrieved v) st))
      | Reraised e =>
          Some (say [Retry i (Attempt attempt); Failure i e]
                  (set_phase i (Done None) st))
      | Backoff d =>
          Some (say [Retry i (Attempt attempt)]
                  (set_phase i (Sleeping remaining attempt d) st))
      end
  | Sleeping remaining attempt d =>
      Some (say [Retry i (Sleep attempt d)]
              (set_phase i (InLoop remaining (S attempt)) st))
  | Retrieved c =>
      if is_valid_content c then
        Some (set_phase i (Done c) (commit i m c st))
      else
        Some (say [InvalidContent i] (set_phase i (Done None) st))
  | Done _ | Cancelled => None
  end.

(** One step of the race; [None] when the action cannot happen in [st]. *)
Definition step (a : action) (st : state) : option state :=
  match a with
  | Run i =>
      match nth_error (methods cfg) i with
      | Some m => worker_step i m st
      | None => None
      end
  | Cancel i =>
      if (i <? List.length (methods cfg))
         && truthy (content (slot st)) && some_done st
      then
        match phases st i with
        | Pending => Some (set_phase i Cancelled st)
        | _ => None
        end
      else None
  end.

(** The race along a schedule; an action that cannot happen is skipped. *)
Fixpoint run (schedule : list action) (st : state) : state :=
  match schedule with
  | [] => st
  | a :: schedule' =>
      match step a st with
      | Some st' => run schedule' st'
      | None => run schedule' st
      end
  end.

(** The state when the executor has been given the tasks. *)
Definition submitted : state :=
  {| slot := {| content := None; winner := None |};
     phases := fun _ => Pending;
     log := [] |}.

(** The executor has shut down: every task has ended or was cancelled. *)
Definition finished (st : state) : bool :=
  forallb (fun i => terminal (phases st i)) tasks.

(** The lines after the [with] block ("Handle results"). *)
Definition handle_results (st : state) : option str * list race_event :=
  if truthy (content (slot st)) then
    (content (slot st),
     log st ++ ConcurrentSuccess (winner (slot st)) :: save cfg (content (slot st)))
  else (None, log st ++ [AllFailed]).

(** [SinglePageScraper._scrape_concurrent] along a schedule: [None] while
    the schedule leaves a task unfinished (the [with] block has not
    exited); [ThreadPoolExecutor] raises [ValueError] for no worker. *)
Definition _scrape_concurrent (schedule : list action)
  : option (outcome (option str) * list race_event) :=
  if max_workers =? 0 then
    Some (Raise (Exception (lit "ValueError")
                   (lit "max_workers must be greater than 0")), [])
  else
    let st := run schedule submitted in
    if finished st then
      let (r, tr) := handle_results st in Some (Return r, tr)
    else None.

(** The steps as a relation: the cases of [step]. *)
Inductive transition (st : state) : state -> Prop :=
| enter_late i m :
    nth_error (methods cfg) i = Some m -> phases st i = Pending ->
    active st < max_workers -> truthy (content (slot st)) = true ->
    transition st (set_phase i (Done None) st)
| enter i m :
    nth_error (methods cfg) i = Some m -> phases st i = Pending ->
    active st < max_workers -> truthy (content (slot st)) = false ->
    transition st
      (say [Starting i]
         (set_phase i
            (InLoop (Z.to_nat (max_retries (retry_mechanism cfg) + 1)) 0) st))
| fall_through i m attempt :
    nth_error (methods cfg) i = Some m -> phases st i = InLoop 0 attempt ->
    transition st (set_phase i (Retrieved None) st)
| attempt_returns i m remaining attempt v :
    nth_error (methods cfg) i = Some m ->
    phases st i = InLoop (S remaining) attempt ->
    retry_iteration (retry_mechanism cfg) (_scrape_with_method m)
      (uniform cfg i) attempt = Returned v ->
    transition st
      (say [Retry i (Attempt attempt)] (set_phase i (Retrieved v) st))
| attempt_reraises i m remaining attempt e :
    nth_error (methods cfg) i = Some m ->
    phases st i = InLoop (S remaining) attempt ->
    retry_iteration (retry_mechanism cfg) (_scrape_with_method m)
      (uniform cfg i) attempt = Reraised e ->
    transition st
      (say [Retry i (Attempt attempt); Failure i e]
         (set_phase i (Done None) st))
| attempt_backs_off i m remaining attempt d :
    nth_error (methods cfg) i = Some m ->
    phases st i = InLoop (S remaining) attempt ->
    retry_iteration (retry_mechanism cfg) (_scrape_with_method m)
      (uniform cfg i) attempt = Backoff d ->
    transition st
      (say [Retry i (Attempt attempt)]
         (set_phase i (Sleeping remaining attempt d) st))
| sleep_over i m remaining attempt d :
    nth_error (methods cfg) i = Some m ->
    phases st i = Sleeping remaining attempt d ->
    transition st
      (say [Retry i (Sleep attempt d)]
         (set_phase i (InLoop remaining (S attempt)) st))
| validated i m c :
    nth_error (methods cfg) i = Some m -> phases st i = Retrieved c ->
    is_valid_content c = true ->
    transition st (set_phase i (Done c) (commit i m c st))
| rejected i m c :
    nth_error (methods cfg) i = Some m -> phases st i = Retrieved c ->
    is_valid_content c = false ->
    transition st (say [InvalidContent i] (set_phase i (Done None) st))
| cancelled i :
    i < List.length (methods cfg) -> phases st i = Pending ->
    truthy (content (slot st)) = true -> some_done st = true ->
    transition st (set_phase i Cancelled st).

(** The states the race can be in. *)
Definition reachable (st : state) : Prop :=
  exists schedule, st = run schedule submitted.

(** How many steps the task in phase [p] can still take, at most. *)
Definition steps_left (p : phase) : nat :=
  match p with
  | Pending => 2 * Z.to_nat (max_retries (retry_mechanism cfg) + 1) + 3
  | InLoop remaining _ => 2 * remaining + 2
  | Sleeping remaining _ _ => 2 * remaining + 3
  | Retrieved _ => 1
  | Done _ | Cancelled => 0
  end.

Definition work_left (st : state) : nat :=
  list_sum (map (fun i => steps_left (phases st i)) tasks).

Definition can_run (st : state) (i : nat) : bool :=
  match step (Run i) st with Some _ => true | None => false end.

(** A schedule that lets the race come to its end from [st]: again and
    again the first task that can take a step takes one. *)
Fixpoint drain (fuel : nat) (st : state) : list action :=
  match fuel with
  | O => []
  | S fuel' =>
      match find (can_run st) tasks with
      | Some i =>
          Run i :: match step (Run i) st with
                   | Some st' => drain fuel' st'
                   | None => []
                   end
      | None => []
      end
  end.

Definition to_the_end (st : state) : list action := drain (work_left st) st.

End Concurrent.

(** [SinglePageScraper.scrape_website] after the URL has been validated. *)
Definition scrape_website (cfg : config) (concurrent : bool)
    (schedule : list action) : option (outcome (option str) * list race_event) :=
  if concurrent then _scrape_concurrent cfg schedule
  else let (r, tr) := _scrape_sequential cfg in Some (Return r, tr).

(** ** Notions of the specification and sample inputs *)

(** [content] contains one of the structural markers, in some letter case. *)
Definition marked (content : str) : Prop :=
  exists m a w b,
    In m html_indicators /\ lower w = m /\ content = a ++ w ++ b.

(** Sample contents. *)
Definition short_div : str := lit "<div" ++ repeat "x"%char 46.
Definition upper_div : str := lit "<DIV" ++ repeat "x"%char 96.
Definition long_text : str := repeat "x"%char 501.
Definition stub_text : str := repeat "x"%char 99.


(** [RetryMechanism(max_retries=3)]. *)
Definition three_retries : RetryMechanism := RetryMechanism_init (Some 3%Z) None.

(** Sample wrapped calls and jitters. *)
Definition boom (k : nat) : exn :=
  Exception (lit "ConnectionError") (lit "attempt " ++ repeat "I"%char k).
Definition always_raises (k : nat) : outcome (option str) := Raise (boom k).
Definition half (_ : nat) : Q := (1 # 2)%Q.
(** A jitter that is 1 at the first draw and 0 afterwards. *)
Definition falling (k : nat) : Q := if k =? 0 then 1%Q else 0%Q.

(** The outcome of the retry loop around a method (the jitter has no part
    in it, see [retry_loop_outcome_jitter]). *)
Definition retry_outcome (self : RetryMechanism) (m : ScrapingMethod)
  : outcome (option str) :=
  fst (retry_with_backoff self (_scrape_with_method m) (fun _ => 0%Q)).

(** The retry loop around the method returns content that validates. *)
Definition usable (self : RetryMechanism) (m : ScrapingMethod) : bool :=
  match retry_outcome self m with
  | Return c => is_valid_content c
  | Raise _ => false
  end.

(** What sequential mode prints for methods none of which is usable,
    numbered from [i]. *)
Fixpoint failure_log (cfg : config) (i : nat) (ms : list ScrapingMethod)
  : list race_event :=
  match ms with
  | [] => []
  | m :: ms' =>
      (Header i :: map (Retry i) (snd (retried cfg i m)))
      ++ match fst (retried cfg i m) with
         | Return c => if truthy c then TooShort i else NoContent i
         | Raise e => FailedCompletely i e
         end
      :: failure_log cfg (S i) ms'
  end.

(** The methods sequential mode announced, in the order of the log. *)
Definition headers (log : list race_event) : list nat :=
  flat_map (fun ev => match ev with Header i => [i] | _ => [] end) log.

(** A run of the libraries in which the request is refused, a browser had
    been started and closing it fails too. *)
Definition refused : transport :=
  {| body_result := Raise (boom 0);
     driver_started := true;
     quit_result := Raise (boom 1) |}.

(** Sample methods and races. *)
Definition dead (n : str) : ScrapingMethod :=
  {| name := n; _scrape_with_method := always_raises |}.
Definition mute (n : str) : ScrapingMethod :=
  {| name := n; _scrape_with_method := fun _ => Return None |}.
Definition stub (n : str) : ScrapingMethod :=
  {| name := n; _scrape_with_method := fun _ => Return (Some stub_text) |}.
Definition good (n : str) (c : str) : ScrapingMethod :=
  {| name := n; _scrape_with_method := fun _ => Return (Some c) |}.

Definition race (ms : list ScrapingMethod) : config :=
  {| retry_mechanism := three_retries;
     methods := ms;
     uniform := fun _ => half;
     url := lit "https://example.com";
     save_to_file := None |}.

Definition hopeless_race : config :=
  race [dead (lit "A"); mute (lit "B"); stub (lit "C")].
Definition lone_failure : config := race [dead (lit "A")].
Definition late_success : config :=
  race [dead (lit "A"); stub (lit "B"); good (lit "C") upper_div;
        good (lit "D") long_text].

(** The commits a log shows: the lines " FIRST SUCCESS", printed under the
    lock when the slot is filled. *)
Definition commits (log : list race_event) : list (nat * option str) :=
  flat_map (fun ev => match ev with FirstSuccess i c => [(i, c)] | _ => [] end)
    log.

(** The slot and the log agree: the slot is empty and nothing was
    committed, or it holds a validated content and the name of the method
    whose commit is the only one of the log. *)
Definition accounted (cfg : config) (st : state) : Prop :=
  match content (slot st) with
  | None => winner (slot st) = None /\ commits (log st) = []
  | Some c =>
      is_valid_content (Some c) = true
      /\ exists i m, nth_error (methods cfg) i = Some m
                     /\ winner (slot st) = Some (name m)
                     /\ commits (log st) = [(i, Some c)]
  end.

(** A race of two usable methods, and a schedule in which the second
    commits while the first holds its content, not yet validated. *)
Definition photo_finish : config :=
  race [good (lit "A") upper_div; good (lit "B") long_text].
Definition second_wins : list action := [Run 0; Run 1; Run 0; Run 1; Run 1].

(** C2 as the specification states it: the value an exhausted race
    returns carries one entry per strategy, so that some reading [read]
    of the returned value yields as many entries as there are methods. *)
Definition carries_causes (D : Type) (read : option str -> list D) : Prop :=
  forall cfg : config,
    Forall (fun m => usable (retry_mechanism cfg) m = false) (methods cfg) ->
    List.length (read (fst (_scrape_sequential cfg)))
    = List.length (methods cfg).

(** A task in phase [p] is where the retry loop of its method would be. *)
Definition on_course (cfg : config) (i : nat) (m : ScrapingMethod)
    (p : phase) : Prop :=
  match p with
  | InLoop r k =>
      fst (retry_loop (retry_mechanism cfg) (_scrape_with_method m)
             (uniform cfg i) r k) = fst (retried cfg i m)
  | Sleeping r k _ =>
      fst (retry_loop (retry_mechanism cfg) (_scrape_with_method m)
             (uniform cfg i) r (S k)) = fst (retried cfg i m)
  | Retrieved c => Return c = fst (retried cfg i m)
  | Pending | Cancelled | Done _ => True
  end.

(** What holds throughout a race none of whose methods is usable. *)
Definition exhausting (cfg : config) (st : state) : Prop :=
  content (slot st) = None
  /\ (forall i m, nth_error (methods cfg) i = Some m ->
                  on_course cfg i m (phases st i))
  /\ (forall i, nth_error (methods cfg) i = None -> phases st i = Pending)
  /\ (forall i, phases st i <> Cancelled)
  /\ (forall i, count_occ Nat.eq_dec (diagnostics (log st)) i
                = if is_done (phases st i) then 1 else 0).

(** The attempts and sleeps of the retry loop of task [i] that a log
    shows. *)
Definition retry_events (i : nat) (log : list race_event) : list retry_event :=
  flat_map (fun ev => match ev with
                      | Retry j e => if j =? i then [e] else []
                      | _ => []
                      end) log.

(** The task is between two steps of its retry loop: before an attempt
    or before a sleep. *)
Definition at_retry_boundary (p : phase) : bool :=
  match p with
  | InLoop _ _ | Sleeping _ _ _ => true
  | _ => false
  end.

(** C4 as the specification states it, for task [i] in state [st]: from
    [st] on the task makes no further attempt and does not sleep again. *)
Definition abandons_retries (cfg : config) (st : state) (i : nat) : Prop :=
  forall after,
    retry_events i (log (run cfg after st)) = retry_events i (log st).

(** The task will not enter or continue a retry loop: it has left the
    loop, or it has not started while the slot is already filled. *)
Definition settled (i : nat) (st : state) : Prop :=
  match phases st i with
  | Pending => truthy (content (slot st)) = true
  | InLoop _ _ | Sleeping _ _ _ => False
  | Retrieved _ | Done _ | Cancelled => True
  end.

(** A race in which the first method always raises and the second
    returns usable content at once; a schedule after which the second
    has committed while the first is about to sleep after its first
    failed attempt; and the steps the first takes from there. *)
Definition lost_cause : config :=
  race [dead (lit "A"); good (lit "B") upper_div].
Definition winner_declared : list action := [Run 0; Run 0; Run 1; Run 1; Run 1].
Definition straggler : list action := repeat (Run 0) 10.

(** ** Further notions: the rest of [scrapper.py] *)

(** The sum of a list of delays. *)
Definition total (delays : list Q) : Q := fold_right Qplus 0%Q delays.

(** [RetryMechanism(max_retries=-1)] and a jitter that is always 1. *)
Definition no_retries : RetryMechanism := RetryMechanism_init (Some (-1)%Z) None.
Definition full (_ : nat) : Q := 1%Q.

(** A run of the libraries in which the page is delivered, a browser had
    been started and closing it fails. *)
Definition delivered : transport :=
  {| body_result := Return upper_div;
     driver_started := true;
     quit_result := Raise (boom 1) |}.

(** The content a retry loop hands over: what it returned, nothing when
    it raised. *)
Definition returned_content (o : outcome (option str)) : option str :=
  match o with
  | Return c => c
  | Raise _ => None
  end.

(** What holds throughout every concurrent race: each task is where the
    retry loop of its method would be; a usable method whose task has
    ended leaves a filled slot behind; a filled slot holds the content
    that the retry loop of the recorded winner returned, which
    validates, and the log shows its commit. *)
Definition sound_race (cfg : config) (st : state) : Prop :=
  (forall i m, nth_error (methods cfg) i = Some m ->
               on_course cfg i m (phases st i))
  /\ (forall i m, nth_error (methods cfg) i = Some m ->
                  terminal (phases st i) = true ->
                  usable (retry_mechanism cfg) m = true ->
                  truthy (content (slot st)) = true)
  /\ match content (slot st) with
     | None => True
     | Some c =>
         is_valid_content (Some c) = true
         /\ exists i m, nth_error (methods cfg) i = Some m
                     /\ fst (retried cfg i m) = Return (Some c)
                     /\ winner (slot st) = Some (name m)
                     /\ In (FirstSuccess i (Some c)) (log st)
     end.


(** A task that has not called its method: no attempt and no sleep of
    its retry loop is in the log, and if it was cancelled the slot is
    filled. *)
Definition untouched (i : nat) (st : state) : Prop :=
  match phases st i with
  | Pending => retry_events i (log st) = []
  | Cancelled =>
      retry_events i (log st) = [] /\ truthy (content (slot st)) = true
  | _ => True
  end.

(** Thirteen usable methods, as many as a scraper has at most. *)
Definition crowd : config :=
  race (map (fun k => good (repeat "m"%char (S k)) long_text) (seq 0 13)).




(** *** URLValidator *)

(** [s.startswith((p1, p2, ...))]. *)
Definition startswith_any (prefixes : list str) (s : str) : bool :=
  existsb (fun p => startswith p s) prefixes.

Definition ValueError (msg : str) : exn := Exception (lit "ValueError") msg.

(** [except ValueError]: the class of the exception is compared by name. *)
Definition is_ValueError (e : exn) : bool :=
  if list_eq_dec ascii_dec (exn_class e) (lit "ValueError") then true else false.

Section URLValidator.

(** [urlparse(url).netloc] of the standard library, or the exception
    [urlparse] raises. *)
Variable netloc : str -> outcome str.

(** [URLValidator.validate_and_format_url]. *)
Definition validate_and_format_url (url : str) : outcome str :=
  if negb (truthy (Some url)) then
    Raise (ValueError (lit "URL cannot be empty"))
  else
    let url := strip url in
    let url :=
      if negb (startswith_any [lit "http://"; lit "https://"] url)
      then lit "https://" ++ url else url in
    match netloc url with
    | Raise e => Raise e
    | Return parsed_netloc =>
        if negb (truthy (Some parsed_netloc)) then
          Raise (ValueError (lit "Invalid URL: " ++ url))
        else Return url
    end.

End URLValidator.

(** Neither end of the string is whitespace. *)
Definition trimmed (s : str) : Prop := lstrip s = s /\ lstrip (rev s) = rev s.

(** A [netloc] for the samples: what stands between the two slashes and
    the next slash. *)
Fixpoint upto_slash (s : str) : str :=
  match s with
  | [] => []
  | c :: t => if Ascii.eqb c "/"%char then [] else c :: upto_slash t
  end.
Definition sample_netloc (url : str) : outcome str :=
  if startswith (lit "https://") url then Return (upto_slash (skipn 8 url))
  else if startswith (lit "http://") url then Return (upto_slash (skipn 7 url))
  else Return [].

(** *** CommandLineInterface *)

(** [x == y] on strings. *)
Definition str_eqb (x y : str) : bool :=
  if list_eq_dec ascii_dec x y then true else false.

(** [x in [y1, y2, ...]]. *)
Definition is_in (x : str) (l : list str) : bool :=
  existsb (str_eqb x) l.

(** [s.replace(old, new)] for a non-empty [old], from a position where
    [skip] more characters belong to an occurrence already replaced. *)
Fixpoint replace_from (old new : str) (skip : nat) (s : str) : str :=
  match s with
  | [] => []
  | c :: t =>
      match skip with
      | S skip' => replace_from old new skip' t
      | O =>
          if startswith old s
          then new ++ replace_from old new (List.length old - 1) t
          else c :: replace_from old new 0 t
      end
  end.

(** [s.replace(old, new)]; with an empty [old], [new] goes before every
    character and after the last. *)
Definition replace (old new s : str) : str :=
  match old with
  | [] => new ++ flat_map (fun c => c :: new) s
  | _ :: _ => replace_from old new 0 s
  end.

(** [s.split(sep)] for a separator of one character. *)
Fixpoint split (sep : ascii) (s : str) : list str :=
  match s with
  | [] => [[]]
  | c :: t =>
      if Ascii.eqb c sep then [] :: split sep t
      else match split sep t with
           | h :: r => (c :: h) :: r
           | [] => [[c]]
           end
  end.

(** The [domain] of [parse_arguments]. *)
Definition domain_of (url : str) : str :=
  replace (lit ".") (lit "_")
    (hd [] (split "/"%char
              (replace (lit "www.") []
                 (replace (lit "http://") []
                    (replace (lit "https://") [] url))))).

(** The [while] loop of [parse_arguments] over [args[2:]]. *)
Fixpoint parse_options (rest : list str) (output_file : option str)
    (aggressive concurrent : bool) : option str * bool * bool :=
  match rest with
  | [] => (output_file, aggressive, concurrent)
  | arg :: rest' =>
      if is_in arg [lit "--aggressive"; lit "-a"] then
        parse_options rest' output_file true concurrent
      else if is_in arg [lit "--sequential"; lit "-s"] then
        parse_options rest' output_file aggressive false
      else if negb (startswith (lit "-") arg) then
        parse_options rest' (Some arg) aggressive concurrent
      else parse_options rest' output_file aggressive concurrent
  end.

(** [CommandLineInterface.parse_arguments]; [timestamp] is what
    [time.strftime('%Y%m%d_%H%M%S')] yields; the second component tells
    whether the usage was shown. *)
Definition parse_arguments (timestamp : str) (args : list str)
  : (option str * option str * bool * bool) * bool :=
  match args with
  | _ :: url :: rest =>
      let domain := domain_of url in
      let '(output_file, aggressive, concurrent) :=
        parse_options rest None true true in
      let output_file :=
        if negb (truthy output_file)
        then Some (domain ++ lit "_single_page_" ++ timestamp ++ lit ".html")
        else output_file in
      ((Some url, output_file, aggressive, concurrent), false)
  | _ => ((None, None, true, true), true)
  end.

(** [CommandLineInterface.display_content]: the preview it prints, none
    for an empty content. *)
Definition display_content (content : option str) (max_length : nat)
  : option str :=
  match content with
  | Some (x :: c) =>
      let content := x :: c in
      Some (if max_length <? List.length content
            then firstn max_length content ++ lit "..."
            else content)
  | _ => None
  end.

Inductive cli_event : Type :=
| Usage                                      (* [show_usage] *)
| Activated (url : str) (output_file : option str)
    (aggressive concurrent : bool)           (* the banner of [run] *)
| UrlError (e : exn)                         (* "URL Error: ..." *)
| Starting_scrape (formatted_url : str) (n : nat) (concurrent : bool)
| FromRace (ev : race_event)                 (* what the race prints and writes *)
| Preview (text : str)                       (* [display_content] printed a preview *)
| Successful (content : option str)          (* "SINGLE-PAGE SCRAPING SUCCESSFUL!" *)
| ScrapingFailed.                            (* "SCRAPING FAILED - All methods exhausted" *)

Section CommandLine.

Variable netloc : str -> outcome str.
Variable timestamp : str.
(** The scraper of the command line: its retry mechanism, what its
    methods do for a URL, and the jitters. *)
Variable retry : RetryMechanism.
Variable methods_on : str -> list ScrapingMethod.
Variable jitters : nat -> nat -> Q.

Definition scraper_config (formatted_url : str) (save_to_file : option str)
  : config :=
  {| retry_mechanism := retry;
     methods := methods_on formatted_url;
     uniform := jitters;
     url := formatted_url;
     save_to_file := save_to_file |}.

(** [SinglePageScraper.scrape_website], from the URL as given. *)
Definition SinglePageScraper_scrape_website (url : str)
    (save_to_file : option str) (concurrent : bool) (schedule : list action)
  : option (outcome (option str) * list cli_event) :=
  match validate_and_format_url netloc url with
  | Raise e =>
      if is_ValueError e then Some (Return None, [UrlError e])
      else Some (Raise e, [])
  | Return formatted_url =>
      let cfg := scraper_config formatted_url save_to_file in
      match scrape_website cfg concurrent schedule with
      | Some (r, tr) =>
          Some (r, Starting_scrape formatted_url (List.length (methods cfg))
                     concurrent :: map FromRace tr)
      | None => None
      end
  end.

(** [CommandLineInterface.run]: the exit code. *)
Definition run_cli (args : list str) (schedule : list action)
  : option (outcome nat * list cli_event) :=
  let '((url, output_file, aggressive, concurrent), usage) :=
    parse_arguments timestamp args in
  match url with
  | Some (x :: u) =>
      let url := x :: u in
      let banner := Activated url output_file aggressive concurrent in
      match SinglePageScraper_scrape_website url output_file concurrent
              schedule with
      | None => None
      | Some (Raise e, tr) => Some (Raise e, banner :: tr)
      | Some (Return content, tr) =>
          if truthy content then
            let preview :=
              if negb (truthy output_file) then
                match display_content content 1000 with
                | Some p => [Preview p]
                | None => []
                end
              else [] in
            Some (Return 0, banner :: tr ++ preview ++ [Successful content])
          else Some (Return 1, banner :: tr ++ [ScrapingFailed])
      end
  | _ => Some (Return 1, if usage then [Usage] else [])
  end.

End CommandLine.

(** Sample command lines. *)
Definition stamp : str := lit "20240101_120000".
Definition plain_command : list str :=
  [lit "scrapper.py"; lit "https://www.example.com/a/b.html"].
Definition busy_command : list str :=
  [lit "scrapper.py"; lit "example.com"; lit "-s"; lit "first.html";
   lit "--aggressive"; lit "second.html"; lit "--verbose"].
Definition sample_methods (_ : str) : list ScrapingMethod :=
  [dead (lit "A"); good (lit "B") upper_div].

(** ** [html_cleaner.py]: CleaningStatistics *)

(** The dictionary [self.stats]: keys in the order of insertion. *)
Definition dict : Type := list (str * Z).

(** [d.get(k)]. *)
Fixpoint dict_get (k : str) (d : dict) : option Z :=
  match d with
  | [] => None
  | (k', v) :: d' => if str_eqb k k' then Some v else dict_get k d'
  end.

(** [k in d]. *)
Definition dict_has (k : str) (d : dict) : bool :=
  match dict_get k d with Some _ => true | None => false end.

(** [d[k] = v]: the value of a key that is there is replaced where it
    stands, a new key goes to the end. *)
Fixpoint dict_set (k : str) (v : Z) (d : dict) : dict :=
  match d with
  | [] => [(k, v)]
  | (k', v') :: d' =>
      if str_eqb k k' then (k', v) :: d' else (k', v') :: dict_set k v d'
  end.

Definition keys (d : dict) : list str := map fst d.

(** [CleaningStatistics.__init__]. *)
Definition CleaningStatistics_init : dict :=
  [(lit "original_size", 0%Z); (lit "cleaned_size", 0%Z);
   (lit "removed_duplicates", 0%Z); (lit "removed_scripts", 0%Z);
   (lit "removed_styles", 0%Z); (lit "removed_comments", 0%Z);
   (lit "removed_empty", 0%Z)].

Definition set_original_size (size : Z) (stats : dict) : dict :=
  dict_set (lit "original_size") size stats.

Definition set_cleaned_size (size : Z) (stats : dict) : dict :=
  dict_set (lit "cleaned_size") size stats.

(** [get_stat]: [self.stats.get(stat_name, 0)]. *)
Definition get_stat (stat_name : str) (stats : dict) : Z :=
  match dict_get stat_name stats with
  | Some v => v
  | None => 0%Z
  end.

Definition increment_stat (stat_name : str) (stats : dict) : dict :=
  if dict_has stat_name stats
  then dict_set stat_name (get_stat stat_name stats + 1)%Z stats
  else stats.

Definition update_stat (stat_name : str) (value : Z) (stats : dict) : dict :=
  if dict_has stat_name stats then dict_set stat_name value stats else stats.

(** The calls that change a [CleaningStatistics]. *)
Inductive stat_call : Type :=
| Set_original_size (size : Z)
| Set_cleaned_size (size : Z)
| Increment_stat (stat_name : str)
| Update_stat (stat_name : str) (value : Z).

Definition call (stats : dict) (c : stat_call) : dict :=
  match c with
  | Set_original_size size => set_original_size size stats
  | Set_cleaned_size size => set_cleaned_size size stats
  | Increment_stat stat_name => increment_stat stat_name stats
  | Update_stat stat_name value => update_stat stat_name value stats
  end.

(** A statistics object after a sequence of calls. *)
Definition after_calls (calls : list stat_call) : dict :=
  fold_left call calls CleaningStatistics_init.

(** * Properties *)

(** ** Strings *)

Section StringFacts.

Lemma is_space_lower_char (c : ascii) : is_space (lower_char c) = is_space c.
Proof.
  destruct c as [[] [] [] [] [] [] [] []]; reflexivity.
Qed.

Lemma lower_app (a b : str) : lower (a ++ b) = lower a ++ lower b.
Proof. apply map_app. Qed.

Lemma lower_length (s : str) : List.length (lower s) = List.length s.
Proof. apply length_map. Qed.

Lemma startswith_app (p b : str) : startswith p (p ++ b) = true.
Proof.
  induction p as [|x p IH]; simpl; [reflexivity|].
  now rewrite Ascii.eqb_refl, IH.
Qed.

Lemma startswith_inv (p s : str) :
  startswith p s = true -> exists b, s = p ++ b.
Proof.
  revert s; induction p as [|x p IH]; intros s H.
  - now exists s.
  - destruct s as [|y s]; simpl in H; [discriminate|].
    apply andb_true_iff in H as [Hxy Hps].
    apply Ascii.eqb_eq in Hxy; subst y.
    destruct (IH _ Hps) as [b ->]. now exists b.
Qed.

Lemma startswith_contains (m s : str) :
  startswith m s = true -> contains m s = true.
Proof.
  intros H. destruct s; simpl; [exact H|]. now rewrite H.
Qed.

Lemma contains_app (m a b : str) : contains m (a ++ m ++ b) = true.
Proof.
  induction a as [|x a IH].
  - cbn [app]. apply startswith_contains, startswith_app.
  - simpl. rewrite IH. apply orb_true_r.
Qed.

Lemma contains_inv (m s : str) :
  contains m s = true -> exists a b, s = a ++ m ++ b.
Proof.
  induction s as [|x s IH]; simpl; intros H.
  - destruct m; [now exists [], [] | discriminate].
  - apply orb_true_iff in H as [H|H].
    + destruct (startswith_inv m (x :: s) H) as [b Hb]. now exists [], b.
    + destruct (IH H) as (a & b & ->). now exists (x :: a), b.
Qed.

(** A word that starts with a character that is no space survives
    [lstrip], wherever it stands. *)
Lemma lstrip_keeps (a w b : str) (x : ascii) :
  is_space x = false ->
  exists a', lstrip (a ++ (x :: w) ++ b) = a' ++ (x :: w) ++ b.
Proof.
  intros Hx. induction a as [|y a IH]; simpl.
  - rewrite Hx. now exists [].
  - destruct (is_space y).
    + exact IH.
    + now exists (y :: a).
Qed.

Lemma lstrip_suffix (s : str) : exists l, s = l ++ lstrip s.
Proof.
  induction s as [|x s [l IH]]; simpl.
  - now exists [].
  - destruct (is_space x).
    + exists (x :: l). simpl. now f_equal.
    + now exists [].
Qed.

Lemma rstrip_prefix (s : str) : exists r, s = rstrip s ++ r.
Proof.
  unfold rstrip. destruct (lstrip_suffix (rev s)) as [l Hl].
  exists (rev l). rewrite <- rev_app_distr, <- Hl. now rewrite rev_involutive.
Qed.

Lemma strip_infix (s : str) : exists l r, s = l ++ strip s ++ r.
Proof.
  unfold strip. destruct (lstrip_suffix s) as [l Hl].
  destruct (rstrip_prefix (lstrip s)) as [r Hr].
  exists l, r. now rewrite <- Hr.
Qed.


(** A word with no space at either end survives [strip]. *)
Lemma strip_keeps (a w b : str) :
  w <> [] -> Forall (fun c => is_space c = false) w ->
  exists a' b', strip (a ++ w ++ b) = a' ++ w ++ b'.
Proof.
  intros Hne Hw. unfold strip, rstrip.
  destruct w as [|x w]; [contradiction|].
  destruct (lstrip_keeps a w b x) as [a' Ha'].
  { now inversion Hw. }
  rewrite Ha'.
  assert (Hlast : exists y w', rev (x :: w) = y :: w' /\ is_space y = false).
  { destruct (rev (x :: w)) as [|y w'] eqn:E.
    - apply (f_equal (@List.length ascii)) in E.
      rewrite length_rev in E. discriminate.
    - exists y, w'. split; [reflexivity|].
      assert (Hin : In y (x :: w)).
      { apply in_rev. rewrite E. now left. }
      rewrite Forall_forall in Hw. now apply Hw. }
  destruct Hlast as (y & w' & Hrev & Hy).
  rewrite !rev_app_distr, Hrev, <- app_assoc.
  destruct (lstrip_keeps (rev b) w' (rev a') y Hy) as [b' Hb'].
  rewrite Hb'. exists a', (rev b').
  rewrite !rev_app_distr, rev_involutive, <- Hrev, rev_involutive.
  now rewrite <- app_assoc.
Qed.



End StringFacts.

(** ** The content validator *)

Section Validator.

Lemma indicator_no_space (m : str) :
  In m html_indicators -> m <> [] /\ Forall (fun c => is_space c = false) m.
Proof.
  unfold html_indicators. simpl.
  intros [<-|[<-|[<-|[<-|[<-|[]]]]]]; (split; [discriminate|]);
    repeat constructor.
Qed.

Lemma variant_no_space (w : str) :
  In (lower w) html_indicators ->
  w <> [] /\ Forall (fun c => is_space c = false) w.
Proof.
  intros H. destruct (indicator_no_space _ H) as [Hne Hall]. split.
  - intros ->. now apply Hne.
  - unfold lower in Hall. rewrite Forall_map in Hall.
    eapply Forall_impl; [|exact Hall].
    intros c Hc. simpl in Hc. now rewrite is_space_lower_char in Hc.
Qed.

Lemma marked_has_indicator (c : str) : marked c <-> has_indicator c = true.
Proof.
  unfold has_indicator. rewrite existsb_exists. split.
  - intros (m & a & w & b & Hin & Hw & ->).
    exists m. split; [exact Hin|].
    rewrite !lower_app, Hw. apply contains_app.
  - intros (m & Hin & Hc).
    destruct (contains_inv _ _ Hc) as (a & b & Hab).
    unfold lower in Hab.
    apply map_eq_app in Hab as (a0 & r0 & -> & Ha0 & Hr0).
    apply map_eq_app in Hr0 as (w & b0 & -> & Hw & Hb0).
    now exists m, a0, w, b0.
Qed.

Lemma marked_strip (c : str) : marked (strip c) <-> marked c.
Proof.
  split.
  - intros (m & a & w & b & Hin & Hw & Hc).
    destruct (strip_infix c) as (l & r & Hlr).
    exists m, (l ++ a), w, (b ++ r). repeat split; try assumption.
    rewrite Hlr, Hc. now rewrite <- !app_assoc.
  - intros (m & a & w & b & Hin & Hw & ->).
    assert (Hin' : In (lower w) html_indicators) by now rewrite Hw.
    destruct (variant_no_space _ Hin') as [Hne Hall].
    destruct (strip_keeps a w b Hne Hall) as (a' & b' & ->).
    now exists m, a', w, b'.
Qed.

Lemma has_indicator_strip (c : str) :
  has_indicator (strip c) = has_indicator c.
Proof.
  apply eq_true_iff_eq. rewrite <- !marked_has_indicator. apply marked_strip.
Qed.


(** The validator as a function of the stripped length and of the
    presence of a marker. *)
Lemma is_valid_content_spec (c : str) :
  is_valid_content (Some c) =
  (100 <=? List.length (strip c))
  && (has_indicator c || (500 <? List.length (strip c))).
Proof.
  unfold is_valid_content. destruct c as [|x c].
  - reflexivity.
  - cbn [truthy negb]. rewrite has_indicator_strip.
    destruct (List.length (strip (x :: c)) <? 100) eqn:E.
    + apply Nat.ltb_lt in E.
      replace (100 <=? _) with false; [reflexivity|].
      symmetry. apply Nat.leb_gt. exact E.
    + apply Nat.ltb_ge in E.
      replace (100 <=? _) with true by (symmetry; now apply Nat.leb_le).
      now destruct (has_indicator (x :: c)), (500 <? _).
Qed.

Lemma valid_truthy (v : option str) :
  is_valid_content v = true -> truthy v = true.
Proof.
  unfold is_valid_content. now destruct (truthy v).
Qed.

End Validator.

(** *** Claims about the validator *)

Section ValidatorClaims.

(** C3, as the specification states it, fails: a content of 50 units that
    holds the marker [<div] is rejected, because the length test comes
    before the marker test. *)
Lemma C3_short_marked_rejected :
  List.length short_div = 50 /\ marked short_div
  /\ is_valid_content (Some short_div) = false.
Proof.
  split; [reflexivity|]. split; [|reflexivity].
  exists (lit "<div"), [], (lit "<div"), (repeat "x"%char 46).
  split; [|split; reflexivity].
  unfold html_indicators. simpl. tauto.
Qed.

(** C3, amended: for a content that holds a structural marker the
    validator accepts exactly when the stripped content has at least 100
    units; the marker makes up for the 500-unit threshold, not for the
    100-unit minimum. *)
Theorem C3_marker_needs_minimum_length (c : str) :
  marked c ->
  is_valid_content (Some c) = (100 <=? List.length (strip c)).
Proof.
  intros H. apply marked_has_indicator in H.
  rewrite is_valid_content_spec, H. simpl. apply andb_true_r.
Qed.

Lemma C3_marker_needs_minimum_length_witness :
  marked short_div
  /\ is_valid_content (Some short_div)
     = (100 <=? List.length (strip short_div)).
Proof.
  assert (H : marked short_div).
  { apply marked_has_indicator. vm_compute. reflexivity. }
  split; [exact H | apply (C3_marker_needs_minimum_length short_div H)].
Defined.




(** C10: the marker test ignores letter case.  Every content whose
    stripped length is at least 100 units and that holds one of the
    markers in any letter case is accepted. *)
Theorem C10_marker_any_case (c : str) :
  100 <= List.length (strip c) -> marked c ->
  is_valid_content (Some c) = true.
Proof.
  intros Hlen Hm. rewrite is_valid_content_spec.
  apply andb_true_iff. split.
  - now apply Nat.leb_le.
  - apply orb_true_iff. left. now apply marked_has_indicator.
Qed.

Lemma C10_marker_any_case_witness :
  100 <= List.length (strip upper_div) /\ marked upper_div
  /\ is_valid_content (Some upper_div) = true.
Proof.
  assert (Hlen : 100 <= List.length (strip upper_div)).
  { vm_compute. lia. }
  assert (Hm : marked upper_div).
  { exists (lit "<div"), [], (lit "<DIV"), (repeat "x"%char 96).
    split; [|split; reflexivity].
    unfold html_indicators. simpl. tauto. }
  split; [exact Hlen|]. split; [exact Hm|].
  apply (C10_marker_any_case upper_div Hlen Hm).
Defined.

End ValidatorClaims.

(** ** The retry mechanism *)

Section RetryFacts.

Variable self : RetryMechanism.
Variable func : nat -> outcome (option str).
Variable jitter : nat -> Q.






End RetryFacts.

Section Backoff.


(** Below that the order can be reversed: with a base delay of 0 the two
    delays are the two jitters. *)
Remark backoff_delay_base_matters :
  (backoff_delay (RetryMechanism_init (Some 3%Z) (Some 0%Q)) falling 1
   < backoff_delay (RetryMechanism_init (Some 3%Z) (Some 0%Q)) falling 0)%Q.
Proof. vm_compute. reflexivity. Qed.

End Backoff.

(** *** Claims about the retry mechanism *)

Section RetryClaims.





End RetryClaims.

(** ** The scraping methods *)

Section ScrapeClaims.

Variable installed : dependency -> bool.

Lemma scrape_cleanup_returns (t : transport) (v : variant) :
  exists tr, scrape_cleanup t v = (Return tt, tr).
Proof.
  unfold scrape_cleanup. destruct (driver_started t); [|now eexists].
  destruct (quit_result t) as [[]|e]; simpl; now eexists.
Qed.

Lemma guarded_body_returns (t : transport) (v : variant) (url : str) :
  exists r tr,
    Logged.try_except (scrape_body t v url)
      (fun e => Logged.emit (FailedMsg v e) ;;; Logged.ret None)
    = (Return r, tr)
    /\ (forall e, body_result t = Raise e -> r = None)
    /\ (forall text, body_result t = Return text -> r = Some text).
Proof.
  unfold scrape_body. destruct (body_result t) as [text|e]; simpl.
  - exists (Some text). eexists. split; [reflexivity|].
    split; [discriminate|]. now intros ? [= ->].
  - exists None. eexists. split; [reflexivity|].
    split; [reflexivity | discriminate].
Qed.

Lemma scrape_returns (t : transport) (v : variant) (url : str) :
  exists r, fst (scrape installed t v url) = Return r.
Proof.
  unfold scrape.
  destruct (guarded_body_returns t v url) as (r & tr & Hg & _).
  destruct (scrape_cleanup_returns t v) as (tr' & Hc).
  destruct (unavailable installed v); [now exists None|].
  rewrite Hg, Hc. unfold Logged.finally.
  destruct (uses_driver v); now exists r.
Qed.

(** C9: [scrape] of every variant returns and never raises, whatever the
    libraries do; when the [try] block raises, the result is [None]; when
    the optional module of the variant is missing, [scrape] reports it
    and returns [None] without starting the retrieval. *)
Theorem C9_scrape_never_raises (t : transport) (v : variant) (url : str) :
  (exists r, fst (scrape installed t v url) = Return r)
  /\ (forall e, body_result t = Raise e ->
                fst (scrape installed t v url) = Return None)
  /\ (unavailable installed v = true ->
      scrape installed t v url = (Return None, [Skipped v])).
Proof.
  unfold scrape.
  destruct (guarded_body_returns t v url) as (r & tr & Hg & Hfault & _).
  destruct (scrape_cleanup_returns t v) as (tr' & Hc).
  destruct (unavailable installed v).
  - split; [now exists None|]. split; reflexivity.
  - rewrite Hg, Hc. unfold Logged.finally.
    destruct (uses_driver v); simpl.
    + split; [now exists r|]. split; [|discriminate].
      intros e He. now rewrite (Hfault e He).
    + split; [now exists r|]. split; [|discriminate].
      intros e He. now rewrite (Hfault e He).
Qed.

End ScrapeClaims.

Lemma C9_scrape_never_raises_witness :
  fst (scrape (fun _ => true) refused SeleniumMethod (lit "https://example.com"))
  = Return None
  /\ scrape (fun _ => false) refused HTTPXMethod (lit "https://example.com")
     = (Return None, [Skipped HTTPXMethod]).
Proof.
  split.
  - apply (C9_scrape_never_raises (fun _ => true) refused SeleniumMethod
             (lit "https://example.com")) with (e := boom 0).
    reflexivity.
  - apply (C9_scrape_never_raises (fun _ => false) refused HTTPXMethod
             (lit "https://example.com")).
    reflexivity.
Defined.

(** A built-in variant never makes the retry loop retry. *)
Lemma builtin_returns (installed : dependency -> bool) (net : nat -> transport)
    (url : str) (v : variant) (k : nat) :
  exists r, _scrape_with_method (builtin installed net url v) k = Return r.
Proof.
  simpl. apply (scrape_returns installed (net k) v url).
Qed.

(** So the retry loop around a built-in variant ends with its first call. *)
Remark builtin_single_attempt (self : RetryMechanism)
    (installed : dependency -> bool) (net : nat -> transport) (url : str)
    (v : variant) (jitter : nat -> Q) :
  (0 <= max_retries self)%Z ->
  attempts
    (snd (retry_with_backoff self
            (_scrape_with_method (builtin installed net url v)) jitter))
  = [0].
Proof.
  intros Hmax. unfold retry_with_backoff.
  replace (Z.to_nat (max_retries self + 1))
    with (S (Z.to_nat (max_retries self))) by lia.
  destruct (builtin_returns installed net url v 0) as [r Hr].
  cbn [retry_loop]. unfold retry_iteration. now rewrite Hr.
Qed.

(** A [SinglePageScraper] has ten or thirteen methods, hence eight
    workers. *)
Remark scraper_has_eight_workers (cfg : config)
    (installed : dependency -> bool) (net : nat -> transport)
    (aggressive_mode : bool) :
  methods cfg
  = SinglePageScraper_methods installed net (url cfg) aggressive_mode ->
  max_workers cfg = 8.
Proof.
  intros H. unfold max_workers. rewrite H.
  now destruct aggressive_mode.
Qed.

(** ** Sequential mode *)

Section SequentialFacts.

Lemma retry_loop_outcome_jitter (self : RetryMechanism)
    (func : nat -> outcome (option str)) (j j' : nat -> Q) (r k : nat) :
  fst (retry_loop self func j r k) = fst (retry_loop self func j' r k).
Proof.
  revert k. induction r as [|r IH]; intros k; simpl; [reflexivity|].
  unfold retry_iteration. destruct (func k) as [v|e]; [reflexivity|].
  destruct (Z.of_nat k =? max_retries self)%Z; [reflexivity|].
  specialize (IH (S k)).
  destruct (retry_loop self func j r (S k)), (retry_loop self func j' r (S k)).
  exact IH.
Qed.

Variable cfg : config.

Lemma retried_outcome (i : nat) (m : ScrapingMethod) :
  fst (retried cfg i m) = retry_outcome (retry_mechanism cfg) m.
Proof. apply retry_loop_outcome_jitter. Qed.

Lemma diagnostics_app (l l' : list race_event) :
  diagnostics (l ++ l') = diagnostics l ++ diagnostics l'.
Proof. apply flat_map_app. Qed.

Lemma headers_app (l l' : list race_event) :
  headers (l ++ l') = headers l ++ headers l'.
Proof. apply flat_map_app. Qed.

Lemma invoked_app (l l' : list race_event) :
  invoked (l ++ l') = invoked l ++ invoked l'.
Proof. apply flat_map_app. Qed.

Lemma diagnostics_retry (i : nat) (tr : list retry_event) :
  diagnostics (map (Retry i) tr) = [].
Proof. induction tr; simpl; auto. Qed.

Lemma headers_retry (i : nat) (tr : list retry_event) :
  headers (map (Retry i) tr) = [].
Proof. induction tr; simpl; auto. Qed.

Lemma invoked_retry (i : nat) (tr : list retry_event) :
  Forall (eq i) (invoked (map (Retry i) tr)).
Proof.
  induction tr as [|[k|k d] tr IH]; simpl; auto.
Qed.

Lemma failure_log_diagnostics (i : nat) (ms : list ScrapingMethod) :
  diagnostics (failure_log cfg i ms) = seq i (List.length ms).
Proof.
  revert i. induction ms as [|m ms IH]; intros i; simpl; [reflexivity|].
  rewrite diagnostics_app, diagnostics_retry. simpl.
  rewrite IH.
  destruct (fst (retried cfg i m)) as [c|e]; [destruct (truthy c)|];
    reflexivity.
Qed.

Lemma failure_log_headers (i : nat) (ms : list ScrapingMethod) :
  headers (failure_log cfg i ms) = seq i (List.length ms).
Proof.
  revert i. induction ms as [|m ms IH]; intros i; simpl; [reflexivity|].
  rewrite headers_app, headers_retry. simpl.
  rewrite IH.
  destruct (fst (retried cfg i m)) as [c|e]; [destruct (truthy c)|];
    reflexivity.
Qed.

Lemma failure_log_invoked (i : nat) (ms : list ScrapingMethod) :
  Forall (fun j => i <= j < i + List.length ms) (invoked (failure_log cfg i ms)).
Proof.
  revert i. induction ms as [|m ms IH]; intros i; simpl; [constructor|].
  rewrite invoked_app. apply Forall_app. split.
  - eapply Forall_impl; [|apply invoked_retry]. intros j <-. lia.
  - assert (H : Forall (fun j => i <= j < i + S (List.length ms))
                  (invoked (failure_log cfg (S i) ms))).
    { eapply Forall_impl; [|apply IH]. simpl. intros j Hj. lia. }
    destruct (fst (retried cfg i m)) as [c|e]; [destruct (truthy c)|];
      exact H.
Qed.

(** The loop walks past a run of methods none of which is usable. *)
Lemma sequential_loop_failures (i : nat) (pre rest : list ScrapingMethod) :
  Forall (fun m => usable (retry_mechanism cfg) m = false) pre ->
  sequential_loop cfg i (pre ++ rest)
  = (fst (sequential_loop cfg (i + List.length pre) rest),
     failure_log cfg i pre
     ++ snd (sequential_loop cfg (i + List.length pre) rest)).
Proof.
  intros Hpre. revert i.
  induction Hpre as [|m pre Hm _ IH]; intros i.
  - simpl. rewrite Nat.add_0_r. now destruct (sequential_loop cfg i rest).
  - simpl. unfold usable in Hm. rewrite <- (retried_outcome i m) in Hm.
    destruct (retried cfg i m) as [r tr]. simpl in *.
    replace (i + S (List.length pre)) with (S i + List.length pre) by lia.
    destruct r as [c|e].
    + rewrite Hm, IH. simpl. now rewrite <- app_assoc.
    + rewrite IH. simpl. now rewrite <- app_assoc.
Qed.

End SequentialFacts.

(** *** Claims about sequential mode *)

Section SequentialClaims.

(** C6: sequential mode takes the methods in the order of the list, each
    through the retry loop and the validator; the methods before the
    first usable one do not stop the loop, and the content of the first
    usable one is returned at once: no method after it is called. *)
Theorem C6_sequential_first_valid (cfg : config)
    (pre post : list ScrapingMethod) (m : ScrapingMethod) (c : option str) :
  methods cfg = pre ++ m :: post ->
  Forall (fun m' => usable (retry_mechanism cfg) m' = false) pre ->
  retry_outcome (retry_mechanism cfg) m = Return c ->
  is_valid_content c = true ->
  let k := S (List.length pre) in
  let (r, tr) := _scrape_sequential cfg in
  r = c
  /\ tr = failure_log cfg 1 pre
          ++ (Header k :: map (Retry k) (snd (retried cfg k m)))
          ++ Success k c :: save cfg c
  /\ headers tr = seq 1 k
  /\ Forall (fun i => i <= k) (invoked tr).
Proof.
  intros Hms Hpre Hm Hc k.
  unfold _scrape_sequential. rewrite Hms.
  rewrite (sequential_loop_failures cfg 1 pre (m :: post) Hpre).
  change (1 + List.length pre) with k.
  simpl sequential_loop.
  rewrite <- (retried_outcome cfg k m) in Hm.
  destruct (retried cfg k m) as [r tr]. simpl in Hm. subst r.
  rewrite Hc. simpl fst. simpl snd.
  split; [reflexivity|]. split; [reflexivity|]. split.
  - rewrite headers_app, failure_log_headers. simpl.
    rewrite headers_app, headers_retry. simpl.
    assert (Hsave : headers (save cfg c) = []).
    { unfold save. destruct (save_to_file cfg) as [f|]; [|reflexivity].
      destruct (truthy (Some f)); reflexivity. }
    rewrite Hsave. subst k.
    change (1 :: seq 2 (List.length pre)) with (seq 1 (S (List.length pre))).
    now rewrite seq_S.
  - rewrite invoked_app. apply Forall_app. split.
    + eapply Forall_impl; [|apply failure_log_invoked].
      simpl. intros j Hj. subst k. lia.
    + simpl. rewrite invoked_app. apply Forall_app. split.
      * eapply Forall_impl; [|apply invoked_retry]. intros j <-. lia.
      * simpl. unfold save. destruct (save_to_file cfg) as [f|]; [|constructor].
        destruct (truthy (Some f)); simpl; constructor.
Qed.

Lemma C6_sequential_first_valid_witness :
  fst (_scrape_sequential late_success) = Some upper_div
  /\ headers (snd (_scrape_sequential late_success)) = [1; 2; 3]
  /\ Forall (fun i => i <= 3) (invoked (snd (_scrape_sequential late_success))).
Proof.
  pose proof (C6_sequential_first_valid late_success
                [dead (lit "A"); stub (lit "B")] [good (lit "D") long_text]
                (good (lit "C") upper_div) (Some upper_div)) as H.
  cbv zeta in H.
  destruct (_scrape_sequential late_success) as [r tr].
  destruct H as (Hr & _ & Hh & Hi).
  - reflexivity.
  - repeat constructor.
  - reflexivity.
  - reflexivity.
  - split; [exact Hr|]. split; [exact Hh | exact Hi].
Defined.

End SequentialClaims.

(** ** Concurrent mode *)

Section ConcurrentFacts.

Variable cfg : config.

Lemma step_transition (a : action) (st st' : state) :
  step cfg a st = Some st' -> transition cfg st st'.
Proof.
  destruct a as [i|i]; simpl.
  - destruct (nth_error (methods cfg) i) as [m|] eqn:Hm; [|discriminate].
    unfold worker_step.
    destruct (phases st i) as [| |[|r] k|r k d|c|ret] eqn:Hp; try discriminate.
    + destruct (active cfg st <? max_workers cfg) eqn:Hcap; [|discriminate].
      apply Nat.ltb_lt in Hcap.
      destruct (truthy (content (slot st))) eqn:Ht; intros [= <-].
      * eapply enter_late; eassumption.
      * eapply enter; eassumption.
    + intros [= <-]. eapply fall_through; eassumption.
    + destruct (retry_iteration _ _ _ k) as [v|e|d] eqn:Hit; intros [= <-].
      * eapply attempt_returns; eassumption.
      * eapply attempt_reraises; eassumption.
      * eapply attempt_backs_off; eassumption.
    + intros [= <-]. eapply sleep_over; eassumption.
    + destruct (is_valid_content c) eqn:Hv; intros [= <-].
      * eapply validated; eassumption.
      * eapply rejected; eassumption.
  - destruct (i <? List.length (methods cfg)) eqn:Hi; [|discriminate].
    destruct (truthy (content (slot st))) eqn:Ht; [|discriminate].
    destruct (some_done cfg st) eqn:Hd; [|discriminate]. simpl.
    destruct (phases st i) eqn:Hp; try discriminate.
    intros [= <-]. apply Nat.ltb_lt in Hi. now apply cancelled.
Qed.

(** A property that holds when the tasks are submitted and that every
    transition keeps holds in every state the race reaches. *)
Lemma run_invariant (P : state -> Prop) :
  (forall st st', P st -> transition cfg st st' -> P st') ->
  forall schedule st, P st -> P (run cfg schedule st).
Proof.
  intros Hstep. induction schedule as [|a schedule IH]; intros st Hst.
  - exact Hst.
  - simpl. destruct (step cfg a st) as [st'|] eqn:E.
    + apply IH. eapply Hstep; [exact Hst|]. eapply step_transition, E.
    + now apply IH.
Qed.

Lemma run_app (s1 s2 : list action) (st : state) :
  run cfg (s1 ++ s2) st = run cfg s2 (run cfg s1 st).
Proof.
  revert st. induction s1 as [|a s1 IH]; intros st; simpl; [reflexivity|].
  destruct (step cfg a st); apply IH.
Qed.

(** *** The slot is written once *)

Lemma commit_frozen (i : nat) (m : ScrapingMethod) (c : option str)
    (st : state) :
  truthy (content (slot st)) = true -> commit i m c st = st.
Proof. unfold commit. now intros ->. Qed.

Lemma transition_frozen (st st' : state) :
  truthy (content (slot st)) = true -> transition cfg st st' ->
  slot st' = slot st.
Proof.
  intros Ht H. destruct H; try reflexivity.
  now rewrite commit_frozen.
Qed.

Lemma run_frozen (schedule : list action) (st : state) :
  truthy (content (slot st)) = true ->
  slot (run cfg schedule st) = slot st.
Proof.
  intros Ht.
  apply (run_invariant (fun st' => slot st' = slot st)); [|reflexivity].
  intros s s' Hs Htr. rewrite <- Hs. apply transition_frozen; [|exact Htr].
  now rewrite Hs.
Qed.

Lemma commits_app (l l' : list race_event) :
  commits (l ++ l') = commits l ++ commits l'.
Proof. apply flat_map_app. Qed.

Lemma transition_accounted (st st' : state) :
  accounted cfg st -> transition cfg st st' -> accounted cfg st'.
Proof.
  unfold accounted. intros Hacc H.
  destruct H; simpl; try rewrite commits_app; simpl;
    try rewrite app_nil_r; try exact Hacc.
  (* the commit *)
  unfold commit.
  destruct (content (slot st)) as [c0|] eqn:Hc0.
  - destruct Hacc as [Hv Hrest].
    rewrite (valid_truthy _ Hv). simpl. rewrite Hc0. now split.
  - simpl. destruct c as [c|]; [|discriminate]. simpl.
    destruct Hacc as [_ Hlog].
    split; [assumption|]. exists i, m.
    rewrite commits_app, Hlog. now repeat split.
Qed.

Lemma reachable_accounted (st : state) : reachable cfg st -> accounted cfg st.
Proof.
  intros [schedule ->].
  apply (run_invariant (accounted cfg)).
  - apply transition_accounted.
  - now split.
Qed.

Lemma reachable_run (schedule : list action) (st : state) :
  reachable cfg st -> reachable cfg (run cfg schedule st).
Proof.
  intros [s0 ->]. exists (s0 ++ schedule). now rewrite run_app.
Qed.

End ConcurrentFacts.

(** *** Every race comes to its end *)

Section Progress.

Variable cfg : config.

Lemma sum_update_lt (f g : nat -> nat) (i : nat) (l : list nat) :
  NoDup l -> In i l -> g i < f i -> (forall j, j <> i -> g j = f j) ->
  list_sum (map g l) < list_sum (map f l).
Proof.
  intros Hnd Hin Hlt Hext. induction l as [|a l IH]; [contradiction|].
  inversion Hnd as [|? ? Hnotin Hnd']; subst. simpl.
  destruct (Nat.eq_dec a i) as [->|Hai].
  - assert (E : map g l = map f l).
    { apply map_ext_in. intros j Hj. apply Hext. intros ->. contradiction. }
    rewrite E. lia.
  - destruct Hin as [Ha|Hin]; [contradiction|].
    rewrite (Hext a Hai). specialize (IH Hnd' Hin). lia.
Qed.

Lemma forallb_fails (f : nat -> bool) (l : list nat) :
  forallb f l = false -> exists x, In x l /\ f x = false.
Proof.
  induction l as [|a l IH]; simpl; [discriminate|].
  destruct (f a) eqn:E; simpl.
  - intros H. destruct (IH H) as (x & Hx & Hf). exists x. auto.
  - intros _. exists a. auto.
Qed.

Lemma task_index (i : nat) (m : ScrapingMethod) :
  nth_error (methods cfg) i = Some m -> In i (tasks cfg).
Proof.
  intros H. apply in_seq. split; [lia|]. simpl.
  apply nth_error_Some. now rewrite H.
Qed.

Lemma work_left_moves (st st' : state) (i : nat) (p : phase) :
  In i (tasks cfg) ->
  (forall j, phases st' j = if j =? i then p else phases st j) ->
  steps_left cfg p < steps_left cfg (phases st i) ->
  work_left cfg st' < work_left cfg st.
Proof.
  intros Hin Hph Hlt. unfold work_left.
  apply sum_update_lt with (i := i).
  - apply seq_NoDup.
  - exact Hin.
  - rewrite Hph, Nat.eqb_refl. exact Hlt.
  - intros j Hj. rewrite Hph.
    destruct (Nat.eqb_spec j i); [contradiction | reflexivity].
Qed.

Lemma commit_phases (i : nat) (m : ScrapingMethod) (c : option str)
    (st : state) :
  phases (commit i m c st) = phases st.
Proof. unfold commit. now destruct (negb (truthy (content (slot st)))). Qed.

Lemma transition_work_left (st st' : state) :
  transition cfg st st' -> work_left cfg st' < work_left cfg st.
Proof.
  intros H.
  destruct H as [i m Hm Hp|i m Hm Hp|i m k Hm Hp|i m r k v Hm Hp
                |i m r k e Hm Hp|i m r k d Hm Hp|i m r k d Hm Hp
                |i m c Hm Hp|i m c Hm Hp|i Hi Hp];
    try (pose proof (task_index i m Hm) as Hin);
    try (assert (Hin : In i (tasks cfg)) by (apply in_seq; simpl; lia)).
  all: eapply work_left_moves with (i := i);
    [exact Hin
    | intros j; simpl; try rewrite commit_phases; reflexivity
    | rewrite Hp; simpl; lia].
Qed.

(** While a task is unfinished, some task can take a step. *)
Lemma progress (st : state) :
  finished cfg st = false -> exists i, In i (tasks cfg) /\ can_run cfg st i = true.
Proof.
  intros Hfin. unfold finished in Hfin.
  apply forallb_fails in Hfin. destruct Hfin as (i & Hin & Hterm).
  assert (Hrun : forall j, In j (tasks cfg) -> running (phases st j) = true ->
                           can_run cfg st j = true).
  { intros j Hj Hr. apply in_seq in Hj. simpl in Hj.
    destruct (nth_error (methods cfg) j) as [m|] eqn:Hm.
    2:{ apply nth_error_None in Hm. lia. }
    unfold can_run. simpl. rewrite Hm. unfold worker_step.
    destruct (phases st j) as [| |[|r] k|r k d|c|ret]; try discriminate;
      try reflexivity.
    - now destruct (retry_iteration _ _ _ k).
    - now destruct (is_valid_content c). }
  destruct (filter (fun j => running (phases st j)) (tasks cfg))
    as [|j l] eqn:Hact.
  - exists i. split; [exact Hin|].
    pose proof Hin as Hi. apply in_seq in Hi. simpl in Hi.
    destruct (nth_error (methods cfg) i) as [m|] eqn:Hm.
    2:{ apply nth_error_None in Hm. lia. }
    unfold can_run. simpl. rewrite Hm. unfold worker_step.
    destruct (phases st i) as [| |[|r] k|r k d|c|ret] eqn:Hp;
      try discriminate; try reflexivity.
    + unfold active. rewrite Hact. simpl.
      assert (Hcap : (0 <? max_workers cfg) = true).
      { apply Nat.ltb_lt. unfold max_workers. lia. }
      rewrite Hcap. now destruct (truthy (content (slot st))).
    + now destruct (retry_iteration _ _ _ k).
    + now destruct (is_valid_content c).
  - assert (Hj : In j (filter (fun j => running (phases st j)) (tasks cfg))).
    { rewrite Hact. now left. }
    apply filter_In in Hj as [Hj Hr]. exists j. split; [exact Hj|].
    now apply Hrun.
Qed.

Lemma stuck_finished (st : state) :
  find (can_run cfg st) (tasks cfg) = None -> finished cfg st = true.
Proof.
  intros Hfind. destruct (finished cfg st) eqn:Hfin; [reflexivity|].
  destruct (progress st Hfin) as (i & Hin & Hcan).
  now rewrite (find_none _ _ Hfind i Hin) in Hcan.
Qed.

Lemma drain_finished (fuel : nat) (st : state) :
  work_left cfg st <= fuel ->
  finished cfg (run cfg (drain cfg fuel st) st) = true.
Proof.
  revert st. induction fuel as [|fuel IH]; intros st Hfuel; cbn [drain].
  - cbn [run]. destruct (finished cfg st) eqn:Hfin; [reflexivity|].
    destruct (progress st Hfin) as (i & _ & Hcan).
    unfold can_run in Hcan.
    destruct (step cfg (Run i) st) as [st'|] eqn:E; [|discriminate].
    apply step_transition, transition_work_left in E. lia.
  - destruct (find (can_run cfg st) (tasks cfg)) as [i|] eqn:Hfind.
    + apply find_some in Hfind as [_ Hcan]. unfold can_run in Hcan.
      destruct (step cfg (Run i) st) as [st'|] eqn:E; [|discriminate].
      cbn [run]. rewrite E. apply IH.
      apply step_transition, transition_work_left in E. lia.
    + cbn [run]. now apply stuck_finished.
Qed.

Lemma to_the_end_finished (st : state) :
  finished cfg (run cfg (to_the_end cfg st) st) = true.
Proof. apply drain_finished. apply Nat.le_refl. Qed.

End Progress.

(** *** Claims about concurrent mode *)

Section SingleWinner.

Lemma max_workers_positive (cfg : config) (i : nat) (m : ScrapingMethod) :
  nth_error (methods cfg) i = Some m -> (max_workers cfg =? 0) = false.
Proof.
  intros H. apply Nat.eqb_neq. unfold max_workers.
  destruct (methods cfg); [destruct i; discriminate | simpl; lia].
Qed.

Lemma handle_results_committed (cfg : config) (st : state) :
  truthy (content (slot st)) = true ->
  fst (handle_results cfg st) = content (slot st).
Proof. unfold handle_results. now intros ->. Qed.

(** C1: a race commits at most once.  Once a result is in the slot, no
    later step changes the content or the name recorded there, whatever
    the other methods return and however the steps interleave; the log
    shows that one commit only; every end of the race returns the
    committed content, and the race can always be brought to its end. *)
Theorem C1_single_commit (cfg : config) (before after : list action) :
  let st := run cfg before submitted in
  let st' := run cfg after st in
  List.length (commits (log st')) <= 1
  /\ (truthy (content (slot st)) = true ->
      slot st' = slot st
      /\ is_valid_content (content (slot st)) = true
      /\ (exists i m, nth_error (methods cfg) i = Some m
                      /\ winner (slot st) = Some (name m)
                      /\ commits (log st') = [(i, content (slot st))])
      /\ (forall r tr,
             _scrape_concurrent cfg (before ++ after) = Some (r, tr) ->
             r = Return (content (slot st)))
      /\ (exists tr,
             _scrape_concurrent cfg (before ++ after ++ to_the_end cfg st')
             = Some (Return (content (slot st)), tr))).
Proof.
  intros st st'.
  assert (Hreach : reachable cfg st) by now exists before.
  assert (Hreach' : reachable cfg st') by now apply reachable_run.
  pose proof (reachable_accounted cfg st' Hreach') as Hacc'.
  split.
  { unfold accounted in Hacc'.
    destruct (content (slot st')) as [c|].
    - destruct Hacc' as (_ & i & m & _ & _ & ->). simpl. lia.
    - destruct Hacc' as [_ ->]. simpl. lia. }
  intros Ht.
  assert (Hslot : slot st' = slot st) by now apply run_frozen.
  unfold accounted in Hacc'. rewrite Hslot in Hacc'.
  destruct (content (slot st)) as [c|] eqn:Hc; [|discriminate].
  destruct Hacc' as (Hv & i & m & Hm & Hw & Hlog).
  split; [exact Hslot|]. split; [exact Hv|]. split.
  { now exists i, m. }
  assert (Ht' : truthy (content (slot st')) = true) by now rewrite Hslot, Hc.
  split.
  - intros r tr. unfold _scrape_concurrent.
    rewrite (max_workers_positive cfg i m Hm), run_app. fold st st'.
    destruct (finished cfg st'); [|discriminate].
    pose proof (handle_results_committed cfg st' Ht') as Hr.
    destruct (handle_results cfg st') as [r' tr']. simpl in Hr.
    intros [= <- <-]. now rewrite Hr, Hslot, Hc.
  - unfold _scrape_concurrent.
    rewrite (max_workers_positive cfg i m Hm), !run_app. fold st st'.
    rewrite to_the_end_finished.
    set (st'' := run cfg (to_the_end cfg st') st').
    assert (Hslot'' : slot st'' = slot st') by now apply run_frozen.
    assert (Ht'' : truthy (content (slot st'')) = true) by now rewrite Hslot''.
    pose proof (handle_results_committed cfg st'' Ht'') as Hr.
    destruct (handle_results cfg st'') as [r' tr']. simpl in Hr.
    exists tr'. now rewrite Hr, Hslot'', Hslot, Hc.
Qed.

Lemma C1_single_commit_witness :
  slot (run photo_finish [Run 0] (run photo_finish second_wins submitted))
  = {| content := Some long_text; winner := Some (lit "B") |}
  /\ is_valid_content (Some upper_div) = true.
Proof.
  destruct (C1_single_commit photo_finish second_wins [Run 0]) as [_ H].
  destruct H as (Hslot & _).
  - vm_compute. reflexivity.
  - split; [|vm_compute; reflexivity].
    rewrite Hslot. vm_compute. reflexivity.
Defined.

End SingleWinner.

Section Exhaustion.

Variable cfg : config.
Hypothesis none_usable :
  Forall (fun m => usable (retry_mechanism cfg) m = false) (methods cfg).

Lemma exhausting_step (st st' : state) (i : nat) (m : ScrapingMethod)
    (p' : phase) :
  exhausting cfg st ->
  nth_error (methods cfg) i = Some m ->
  is_done (phases st i) = false ->
  (forall j, phases st' j = if j =? i then p' else phases st j) ->
  content (slot st') = content (slot st) ->
  diagnostics (log st')
  = diagnostics (log st) ++ (if is_done p' then [i] else []) ->
  p' <> Cancelled ->
  on_course cfg i m p' ->
  exhausting cfg st'.
Proof.
  intros (Hslot & Hcourse & Hout & Hcan & Hcount) Hm Hnd Hph Hs Hlog Hp' Hoc.
  repeat split.
  - now rewrite Hs.
  - intros j mj Hj. rewrite Hph. destruct (Nat.eqb_spec j i) as [->|Hji].
    + rewrite Hm in Hj. injection Hj as <-. exact Hoc.
    + now apply Hcourse.
  - intros j Hj. rewrite Hph. destruct (Nat.eqb_spec j i) as [->|Hji].
    + rewrite Hm in Hj. discriminate.
    + now apply Hout.
  - intros j. rewrite Hph. destruct (Nat.eqb_spec j i); [exact Hp'|apply Hcan].
  - intros j. rewrite Hlog, count_occ_app, Hcount, Hph.
    destruct (Nat.eqb_spec j i) as [->|Hji].
    + rewrite Hnd. destruct (is_done p'); simpl.
      * destruct (Nat.eq_dec i i); [reflexivity | contradiction].
      * reflexivity.
    + destruct (is_done p'); simpl.
      * destruct (Nat.eq_dec i j); [now subst | lia].
      * lia.
Qed.

Lemma retry_loop_step (self : RetryMechanism)
    (func : nat -> outcome (option str)) (jitter : nat -> Q) (r k : nat) :
  retry_loop self func jitter (S r) k
  = match retry_iteration self func jitter k with
    | Returned v => (Return v, [Attempt k])
    | Reraised e => (Raise e, [Attempt k])
    | Backoff d =>
        (fst (retry_loop self func jitter r (S k)),
         Attempt k :: Sleep k d :: snd (retry_loop self func jitter r (S k)))
    end.
Proof.
  simpl. destruct (retry_iteration self func jitter k); try reflexivity.
  now destruct (retry_loop self func jitter r (S k)).
Qed.

Ltac log_step :=
  cbn [log say set_phase is_done]; rewrite ?diagnostics_app;
  simpl; rewrite ?app_nil_r; reflexivity.

Lemma transition_exhausting (st st' : state) :
  exhausting cfg st -> transition cfg st st' -> exhausting cfg st'.
Proof.
  intros Hinv H. pose proof Hinv as (Hslot & Hcourse & _).
  destruct H as [i m Hm Hp Hcap Ht|i m Hm Hp Hcap Ht|i m k Hm Hp
                |i m r k v Hm Hp Hit|i m r k e Hm Hp Hit|i m r k d Hm Hp Hit
                |i m r k d Hm Hp|i m c Hm Hp Hv|i m c Hm Hp Hv|i Hi Hp Ht].
  - rewrite Hslot in Ht. discriminate.
  - eapply exhausting_step with (i := i) (p' := InLoop _ 0);
      try eassumption; try reflexivity; try discriminate.
    + now rewrite Hp.
    + log_step.
  - eapply exhausting_step with (i := i) (p' := Retrieved None);
      try eassumption; try reflexivity; try discriminate.
    + now rewrite Hp.
    + log_step.
    + specialize (Hcourse i m Hm). rewrite Hp in Hcourse. exact Hcourse.
  - eapply exhausting_step with (i := i) (p' := Retrieved v);
      try eassumption; try reflexivity; try discriminate.
    + now rewrite Hp.
    + log_step.
    + specialize (Hcourse i m Hm). rewrite Hp in Hcourse. simpl in Hcourse.
      simpl. rewrite <- Hcourse. now rewrite Hit.
  - eapply exhausting_step with (i := i) (p' := Done None);
      try eassumption; try reflexivity; try discriminate.
    + now rewrite Hp.
    + log_step.
  - eapply exhausting_step with (i := i) (p' := Sleeping r k d);
      try eassumption; try reflexivity; try discriminate.
    + now rewrite Hp.
    + log_step.
    + specialize (Hcourse i m Hm). rewrite Hp in Hcourse.
      unfold on_course in *. rewrite <- Hcourse, retry_loop_step, Hit.
      reflexivity.
  - eapply exhausting_step with (i := i) (p' := InLoop r (S k));
      try eassumption; try reflexivity; try discriminate.
    + now rewrite Hp.
    + log_step.
    + specialize (Hcourse i m Hm). rewrite Hp in Hcourse. exact Hcourse.
  - exfalso. specialize (Hcourse i m Hm). rewrite Hp in Hcourse.
    simpl in Hcourse.
    rewrite Forall_forall in none_usable.
    specialize (none_usable m (nth_error_In _ _ Hm)).
    unfold usable in none_usable.
    rewrite <- (retried_outcome cfg i m), <- Hcourse, Hv in none_usable.
    discriminate.
  - eapply exhausting_step with (i := i) (p' := Done None);
      try eassumption; try reflexivity; try discriminate.
    + now rewrite Hp.
    + log_step.
  - rewrite Hslot in Ht. discriminate.
Qed.

Lemma reachable_exhausting (st : state) :
  reachable cfg st -> exhausting cfg st.
Proof.
  intros [schedule ->].
  apply (run_invariant cfg (exhausting cfg)).
  - apply transition_exhausting.
  - repeat split; try reflexivity; try discriminate.
Qed.

Lemma count_occ_seq (n x : nat) :
  count_occ Nat.eq_dec (seq 0 n) x = if x <? n then 1 else 0.
Proof.
  destruct (Nat.ltb_spec x n) as [Hlt|Hge].
  - apply NoDup_count_occ'; [apply seq_NoDup|]. apply in_seq. lia.
  - apply count_occ_not_In. rewrite in_seq. lia.
Qed.

(** At the end of such a race every method has its diagnostic line,
    once. *)
Lemma exhausting_finished (st : state) :
  exhausting cfg st -> finished cfg st = true ->
  Permutation (diagnostics (log st)) (tasks cfg).
Proof.
  intros (_ & _ & Hout & Hcan & Hcount) Hfin.
  apply (Permutation_count_occ Nat.eq_dec). intros x.
  unfold tasks. rewrite Hcount, count_occ_seq.
  unfold finished in Hfin. rewrite forallb_forall in Hfin.
  destruct (Nat.ltb_spec x (List.length (methods cfg))) as [Hlt|Hge].
  - assert (Hx : In x (tasks cfg)) by (apply in_seq; simpl; lia).
    specialize (Hfin x Hx). specialize (Hcan x).
    destruct (phases st x); try discriminate; [contradiction | reflexivity].
  - rewrite Hout; [reflexivity|]. now apply nth_error_None.
Qed.

Lemma exhausted_concurrent (schedule : list action) (r : option str)
    (tr : list race_event) :
  _scrape_concurrent cfg schedule = Some (Return r, tr) ->
  r = None /\ Permutation (diagnostics tr) (tasks cfg).
Proof.
  unfold _scrape_concurrent.
  destruct (max_workers cfg =? 0); [discriminate|].
  set (st := run cfg schedule submitted).
  assert (Hinv : exhausting cfg st) by (apply reachable_exhausting; now exists schedule).
  destruct (finished cfg st) eqn:Hfin; [|discriminate].
  unfold handle_results. pose proof Hinv as (Hslot & _). rewrite Hslot. simpl.
  intros [= <- <-]. split; [reflexivity|].
  rewrite diagnostics_app. simpl. rewrite app_nil_r.
  now apply exhausting_finished.
Qed.

Lemma exhausted_concurrent_returns :
  methods cfg <> [] ->
  exists tr,
    _scrape_concurrent cfg (to_the_end cfg submitted) = Some (Return None, tr).
Proof.
  intros Hne. unfold _scrape_concurrent.
  assert (Hcap : (max_workers cfg =? 0) = false).
  { apply Nat.eqb_neq. unfold max_workers.
    destruct (methods cfg); [contradiction | simpl; lia]. }
  rewrite Hcap, to_the_end_finished.
  set (st := run cfg (to_the_end cfg submitted) submitted).
  assert (Hinv : exhausting cfg st).
  { apply reachable_exhausting. now exists (to_the_end cfg submitted). }
  unfold handle_results. destruct Hinv as (Hslot & _). rewrite Hslot. simpl.
  now eexists.
Qed.

Lemma exhausted_sequential :
  _scrape_sequential cfg = (None, failure_log cfg 1 (methods cfg) ++ [Critical]).
Proof.
  unfold _scrape_sequential.
  rewrite <- (app_nil_r (methods cfg)) at 1.
  now rewrite (sequential_loop_failures cfg 1 (methods cfg) [] none_usable).
Qed.

End Exhaustion.

(** C2, as the specification states it, fails: the value returned by an
    exhausted race is [None] whether one method failed or three, so no
    reading of it yields one entry per method. *)
Lemma C2_exhausted_value_carries_nothing :
  fst (_scrape_sequential lone_failure) = None
  /\ fst (_scrape_sequential hopeless_race) = None
  /\ forall (D : Type) (read : option str -> list D), ~ carries_causes D read.
Proof.
  split; [reflexivity|]. split; [reflexivity|].
  intros D read H.
  assert (H1 : List.length (read None) = 1).
  { apply (H lone_failure). repeat constructor. }
  assert (H3 : List.length (read None) = 3).
  { apply (H hopeless_race). repeat constructor. }
  rewrite H1 in H3. discriminate.
Qed.

(** C2, amended: when no method is usable (each fails all its retries or
    returns content that does not validate), both modes return [None];
    the failure causes are not part of the returned value but are
    printed, one diagnostic line for each method: in the order of the
    list in sequential mode, in the order of completion in concurrent
    mode, whatever the interleaving; and the concurrent race does come
    to that end. *)
Theorem C2_exhausted_race_returns_none (cfg : config) :
  Forall (fun m => usable (retry_mechanism cfg) m = false) (methods cfg) ->
  (fst (_scrape_sequential cfg) = None
   /\ diagnostics (snd (_scrape_sequential cfg))
      = seq 1 (List.length (methods cfg)))
  /\ (forall schedule r tr,
         _scrape_concurrent cfg schedule = Some (Return r, tr) ->
         r = None
         /\ Permutation (diagnostics tr) (seq 0 (List.length (methods cfg))))
  /\ (methods cfg <> [] ->
      exists tr,
        _scrape_concurrent cfg (to_the_end cfg submitted)
        = Some (Return None, tr)).
Proof.
  intros H. split; [|split].
  - rewrite (exhausted_sequential cfg H). simpl. split; [reflexivity|].
    rewrite diagnostics_app, failure_log_diagnostics. simpl.
    apply app_nil_r.
  - intros schedule r tr. apply (exhausted_concurrent cfg H).
  - apply (exhausted_concurrent_returns cfg H).
Qed.

Lemma C2_exhausted_race_returns_none_witness :
  fst (_scrape_sequential hopeless_race) = None
  /\ diagnostics (snd (_scrape_sequential hopeless_race)) = [1; 2; 3]
  /\ exists tr,
       _scrape_concurrent hopeless_race (to_the_end hopeless_race submitted)
       = Some (Return None, tr).
Proof.
  assert (H : Forall (fun m => usable (retry_mechanism hopeless_race) m = false)
                (methods hopeless_race)).
  { repeat constructor. }
  destruct (C2_exhausted_race_returns_none hopeless_race H)
    as ((Hr & Hd) & _ & Hc).
  split; [exact Hr|]. split; [exact Hd|].
  apply Hc. discriminate.
Defined.

Section Cancellation.

Variable cfg : config.

Lemma retry_events_app (i : nat) (l l' : list race_event) :
  retry_events i (l ++ l') = retry_events i l ++ retry_events i l'.
Proof. apply flat_map_app. Qed.

Lemma run_cons_some (a : action) (schedule : list action) (st st' : state) :
  step cfg a st = Some st' ->
  run cfg (a :: schedule) st = run cfg schedule st'.
Proof. intros H. simpl. now rewrite H. Qed.

Lemma commit_retry_events (i i0 : nat) (m : ScrapingMethod) (c : option str)
    (st : state) :
  retry_events i (log (commit i0 m c st)) = retry_events i (log st).
Proof.
  unfold commit. destruct (negb (truthy (content (slot st)))); [|reflexivity].
  cbn [log say]. rewrite retry_events_app. simpl. apply app_nil_r.
Qed.

Lemma transition_settled (i : nat) (st st' : state) :
  settled i st -> transition cfg st st' ->
  settled i st' /\ retry_events i (log st') = retry_events i (log st).
Proof.
  intros Hs H. unfold settled in *.
  destruct H as [i0 m Hm Hp Hcap Ht|i0 m Hm Hp Hcap Ht|i0 m k Hm Hp
                |i0 m r k v Hm Hp Hit|i0 m r k e Hm Hp Hit
                |i0 m r k d Hm Hp Hit|i0 m r k d Hm Hp
                |i0 m c Hm Hp Hv|i0 m c Hm Hp Hv|i0 Hi Hp Ht];
    cbn [phases slot log say set_phase];
    rewrite ?commit_phases, ?retry_events_app, ?commit_retry_events;
    cbn [retry_events flat_map app];
    (destruct (Nat.eqb_spec i i0) as [Heq|Hne];
     [ subst i0; rewrite Hp in Hs; rewrite ?Nat.eqb_refl
     | rewrite ?(proj2 (Nat.eqb_neq i0 i) (not_eq_sym Hne)) ]);
    try contradiction; try congruence;
    rewrite ?app_nil_r; try (split; [exact Hs | reflexivity]);
    try (split; [exact I | reflexivity]).
  (* a commit by another task: the slot stays filled *)
  split; [|reflexivity].
  destruct (phases st i); try exact Hs.
  now rewrite commit_frozen.
Qed.

(** A settled task makes no attempt and does not sleep, whatever
    happens next. *)
Lemma settled_quiet (i : nat) (st : state) (after : list action) :
  settled i st ->
  retry_events i (log (run cfg after st)) = retry_events i (log st).
Proof.
  intros Hs.
  apply (run_invariant cfg
           (fun s => settled i s
                     /\ retry_events i (log s) = retry_events i (log st)));
    [|now split].
  intros s s' [Hset Hev] Htr.
  destruct (transition_settled i s s' Hset Htr) as [Hset' Hev'].
  split; [exact Hset' | now rewrite Hev'].
Qed.

(** A task inside its retry loop goes through the rest of the loop, as
    [retry_loop] has it, wherever the slot stands. *)
Lemma loop_runs_on (i : nat) (m : ScrapingMethod) (r k : nat) (st : state) :
  nth_error (methods cfg) i = Some m ->
  phases st i = InLoop r k ->
  retry_events i (log (run cfg (repeat (Run i) (2 * r + 2)) st))
  = retry_events i (log st)
    ++ snd (retry_loop (retry_mechanism cfg) (_scrape_with_method m)
              (uniform cfg i) r k).
Proof.
  intros Hm. revert k st. induction r as [|r IH]; intros k st Hp.
  - change (2 * 0 + 2) with 2. cbn [repeat].
    rewrite (run_cons_some (Run i) _ st (set_phase i (Retrieved None) st)).
    2:{ simpl. rewrite Hm. unfold worker_step. now rewrite Hp. }
    rewrite settled_quiet.
    + simpl. now rewrite app_nil_r.
    + unfold settled. simpl. now rewrite Nat.eqb_refl.
  - replace (2 * S r + 2) with (S (S (2 * r + 2))) by lia.
    cbn [repeat]. rewrite retry_loop_step.
    destruct (retry_iteration (retry_mechanism cfg) (_scrape_with_method m)
                (uniform cfg i) k) as [v|e|d] eqn:Hit.
    + rewrite (run_cons_some (Run i) _ st
                 (say [Retry i (Attempt k)] (set_phase i (Retrieved v) st))).
      2:{ simpl. rewrite Hm. unfold worker_step. now rewrite Hp, Hit. }
      rewrite settled_quiet.
      * cbn [log say set_phase]. rewrite retry_events_app. simpl.
        now rewrite Nat.eqb_refl.
      * unfold settled. simpl. now rewrite Nat.eqb_refl.
    + rewrite (run_cons_some (Run i) _ st
                 (say [Retry i (Attempt k); Failure i e]
                    (set_phase i (Done None) st))).
      2:{ simpl. rewrite Hm. unfold worker_step. now rewrite Hp, Hit. }
      rewrite settled_quiet.
      * cbn [log say set_phase]. rewrite retry_events_app. simpl.
        now rewrite Nat.eqb_refl.
      * unfold settled. simpl. now rewrite Nat.eqb_refl.
    + set (st1 := say [Retry i (Attempt k)]
                    (set_phase i (Sleeping r k d) st)).
      set (st2 := say [Retry i (Sleep k d)]
                    (set_phase i (InLoop r (S k)) st1)).
      rewrite (run_cons_some (Run i) _ st st1).
      2:{ simpl. rewrite Hm. unfold worker_step. now rewrite Hp, Hit. }
      rewrite (run_cons_some (Run i) _ st1 st2).
      2:{ simpl. rewrite Hm. unfold worker_step. simpl.
          now rewrite Nat.eqb_refl. }
      rewrite (IH (S k) st2).
      2:{ simpl. now rewrite Nat.eqb_refl. }
      unfold st2, st1. cbn [log say set_phase].
      rewrite !retry_events_app. simpl. rewrite Nat.eqb_refl.
      cbn [snd]. now rewrite <- !app_assoc.
Qed.

Lemma sleep_runs_on (i : nat) (m : ScrapingMethod) (r k : nat) (d : Q)
    (st : state) :
  nth_error (methods cfg) i = Some m ->
  phases st i = Sleeping r k d ->
  retry_events i (log (run cfg (repeat (Run i) (2 * r + 3)) st))
  = retry_events i (log st)
    ++ Sleep k d
       :: snd (retry_loop (retry_mechanism cfg) (_scrape_with_method m)
                 (uniform cfg i) r (S k)).
Proof.
  intros Hm Hp.
  replace (2 * r + 3) with (S (2 * r + 2)) by lia. cbn [repeat].
  set (st1 := say [Retry i (Sleep k d)] (set_phase i (InLoop r (S k)) st)).
  rewrite (run_cons_some (Run i) _ st st1).
  2:{ simpl. rewrite Hm. unfold worker_step. now rewrite Hp. }
  rewrite (loop_runs_on i m r (S k) st1 Hm).
  2:{ simpl. now rewrite Nat.eqb_refl. }
  unfold st1. cbn [log say set_phase].
  rewrite retry_events_app. simpl. rewrite Nat.eqb_refl.
  now rewrite <- app_assoc.
Qed.

End Cancellation.

(** C4, as the specification states it, fails: the retry loop has no
    test of the slot.  Here the second method has committed while the
    first is about to sleep after its first failed attempt; the first
    then sleeps three times and makes its three remaining attempts. *)
Lemma C4_retry_loop_runs_on :
  truthy (content (slot (run lost_cause winner_declared submitted))) = true
  /\ at_retry_boundary (phases (run lost_cause winner_declared submitted) 0)
     = true
  /\ attempts (retry_events 0 (log (run lost_cause winner_declared submitted)))
     = [0]
  /\ attempts
       (retry_events 0
          (log (run lost_cause straggler
                  (run lost_cause winner_declared submitted))))
     = [0; 1; 2; 3]
  /\ List.length
       (sleeps
          (retry_events 0
             (log (run lost_cause straggler
                     (run lost_cause winner_declared submitted)))))
     = 3
  /\ ~ abandons_retries lost_cause
         (run lost_cause winner_declared submitted) 0.
Proof.
  split; [vm_compute; reflexivity|].
  split; [vm_compute; reflexivity|].
  split; [vm_compute; reflexivity|].
  split; [vm_compute; reflexivity|].
  split; [vm_compute; reflexivity|].
  intros H. specialize (H straggler).
  apply (f_equal (fun l => List.length l)) in H.
  vm_compute in H. discriminate.
Qed.

(** C4, amended: the filled slot is read at the entry of the wrapper
    only.  A task that has not started when a winner is committed never
    makes an attempt and never sleeps; a task that is inside its retry
    loop, before an attempt or before a sleep, goes through all that is
    left of the loop, attempt by attempt and sleep by sleep, whether a
    winner is committed or not. *)
Theorem C4_cancellation_at_entry_only (cfg : config) (st : state) (i : nat)
    (m : ScrapingMethod) :
  nth_error (methods cfg) i = Some m ->
  (truthy (content (slot st)) = true -> phases st i = Pending ->
   forall after,
     retry_events i (log (run cfg after st)) = retry_events i (log st))
  /\ (forall r k, phases st i = InLoop r k ->
        retry_events i (log (run cfg (repeat (Run i) (2 * r + 2)) st))
        = retry_events i (log st)
          ++ snd (retry_loop (retry_mechanism cfg) (_scrape_with_method m)
                    (uniform cfg i) r k))
  /\ (forall r k d, phases st i = Sleeping r k d ->
        retry_events i (log (run cfg (repeat (Run i) (2 * r + 3)) st))
        = retry_events i (log st)
          ++ Sleep k d
             :: snd (retry_loop (retry_mechanism cfg) (_scrape_with_method m)
                       (uniform cfg i) r (S k))).
Proof.
  intros Hm. split; [|split].
  - intros Ht Hp after. apply settled_quiet.
    unfold settled. now rewrite Hp.
  - intros r k Hp. now apply loop_runs_on.
  - intros r k d Hp. now apply sleep_runs_on.
Qed.

Lemma C4_cancellation_at_entry_only_witness :
  retry_events 1
    (log (run photo_finish [Run 1; Run 1; Run 1]
            (run photo_finish [Run 0; Run 0; Run 0] submitted)))
  = []
  /\ List.length
       (sleeps
          (retry_events 0
             (log (run lost_cause (repeat (Run 0) (2 * 3 + 3))
                     (run lost_cause winner_declared submitted)))))
     = 3.
Proof.
  split.
  - destruct (C4_cancellation_at_entry_only photo_finish
                (run photo_finish [Run 0; Run 0; Run 0] submitted) 1
                (good (lit "B") long_text) eq_refl) as (H & _ & _).
    rewrite H; [reflexivity | vm_compute; reflexivity | reflexivity].
  - destruct (C4_cancellation_at_entry_only lost_cause
                (run lost_cause winner_declared submitted) 0
                (dead (lit "A")) eq_refl) as (_ & _ & H).
    rewrite (H 3 0 (backoff_delay three_retries half 0)).
    + vm_compute. reflexivity.
    + vm_compute. reflexivity.
Defined.

(** ** More on the retry mechanism *)

Section RetryMore.

Variable self : RetryMechanism.
Variable func : nat -> outcome (option str).
Variable jitter : nat -> Q.



Lemma total_nonneg_bound (k : nat) :
  (Z.of_nat k <= max_retries self)%Z ->
  (0 <= base_delay self)%Q ->
  (0 <= base_delay self
        * inject_Z (2 ^ max_retries self - 2 ^ Z.of_nat k)
        + inject_Z (max_retries self - Z.of_nat k))%Q.
Proof.
  intros Hk Hb.
  assert (H1 : (0 <= inject_Z (2 ^ max_retries self - 2 ^ Z.of_nat k))%Q).
  { change 0%Q with (inject_Z 0). rewrite <- Zle_Qle.
    pose proof (Z.pow_le_mono_r 2 (Z.of_nat k) (max_retries self)). lia. }
  assert (H2 : (0 <= inject_Z (max_retries self - Z.of_nat k))%Q).
  { change 0%Q with (inject_Z 0). rewrite <- Zle_Qle. lia. }
  pose proof (Qmult_le_0_compat _ _ Hb H1). lra.
Qed.

(** The sleeps of a loop that starts at attempt [k] add up to no more
    than the delays of the attempts [k] to [max_retries - 1] with the
    jitter at its maximum. *)
Lemma retry_loop_total_sleep (r k : nat) :
  Z.of_nat (k + r) = max_retries self ->
  (0 <= base_delay self)%Q ->
  (forall j, jitter j <= 1)%Q ->
  (total (sleeps (snd (retry_loop self func jitter (S r) k)))
   <= base_delay self * inject_Z (2 ^ max_retries self - 2 ^ Z.of_nat k)
      + inject_Z (max_retries self - Z.of_nat k))%Q.
Proof.
  intros Hk Hb Hj. revert k Hk.
  induction r as [|r IH]; intros k Hk; rewrite retry_loop_step;
    unfold retry_iteration; destruct (func k) as [v|e];
    try (simpl; apply total_nonneg_bound; [lia | exact Hb]).
  - destruct (Z.eqb_spec (Z.of_nat k) (max_retries self)) as [E|E]; [|lia].
    simpl. apply total_nonneg_bound; [lia | exact Hb].
  - destruct (Z.eqb_spec (Z.of_nat k) (max_retries self)) as [E|_].
    + simpl. apply total_nonneg_bound; [lia | exact Hb].
    + cbn [snd sleeps flat_map app total fold_right].
      fold (sleeps (snd (retry_loop self func jitter (S r) (S k)))).
      fold (total (sleeps (snd (retry_loop self func jitter (S r) (S k))))).
      specialize (IH (S k) ltac:(lia)).
      unfold backoff_delay. specialize (Hj k).
      assert (Hp : (inject_Z (2 ^ max_retries self - 2 ^ Z.of_nat (S k))
                    == inject_Z (2 ^ max_retries self - 2 ^ Z.of_nat k)
                       - inject_Z (2 ^ Z.of_nat k))%Q).
      { rewrite Nat2Z.inj_succ, Z.pow_succ_r by lia.
        unfold Qminus. rewrite <- inject_Z_opp, <- inject_Z_plus.
        apply inject_Z_injective. lia. }
      assert (Hm : (inject_Z (max_retries self - Z.of_nat (S k))
                    == inject_Z (max_retries self - Z.of_nat k) - 1)%Q).
      { change 1%Q with (inject_Z 1).
        unfold Qminus. rewrite <- inject_Z_opp, <- inject_Z_plus.
        apply inject_Z_injective. lia. }
      rewrite Hp, Hm in IH.
      set (T := total _) in *.
      set (P := inject_Z (2 ^ max_retries self - 2 ^ Z.of_nat k)) in *.
      set (p := inject_Z (2 ^ Z.of_nat k)) in *.
      set (M := inject_Z (max_retries self - Z.of_nat k)) in *.
      set (b := base_delay self) in *.
      lra.
Qed.

End RetryMore.

Section RetryMoreClaims.

(** X4: The wrapped function is called at least once exactly when
    [max_retries] is not negative; with a negative [max_retries] the
    mechanism returns [None] at once, without any call or sleep. *)
Theorem retry_negative_never_calls (self : RetryMechanism)
    (func : nat -> outcome (option str)) (jitter : nat -> Q) :
  ((max_retries self < 0)%Z ->
   retry_with_backoff self func jitter = (Return None, []))
  /\ ((0 <= max_retries self)%Z ->
      hd_error (snd (retry_with_backoff self func jitter)) = Some (Attempt 0)).
Proof.
  unfold retry_with_backoff. split; intros H.
  - replace (Z.to_nat (max_retries self + 1)) with 0 by lia. reflexivity.
  - replace (Z.to_nat (max_retries self + 1))
      with (S (Z.to_nat (max_retries self))) by lia.
    rewrite retry_loop_step.
    now destruct (retry_iteration self func jitter 0).
Qed.

Lemma retry_negative_never_calls_witness :
  retry_with_backoff no_retries always_raises half = (Return None, [])
  /\ hd_error (snd (retry_with_backoff three_retries always_raises half))
     = Some (Attempt 0).
Proof.
  split.
  - apply (retry_negative_never_calls no_retries always_raises half).
    vm_compute. reflexivity.
  - apply (retry_negative_never_calls three_retries always_raises half).
    vm_compute. discriminate.
Defined.




(** X3: With a base delay that is not negative and jitters of at most 1, all
    the sleeps of one call of the mechanism add up to at most
    [base_delay * (2 ** max_retries - 1) + max_retries]: ten seconds for
    the default mechanism. *)
Theorem retry_total_backoff_bounded (self : RetryMechanism)
    (func : nat -> outcome (option str)) (jitter : nat -> Q) :
  (0 <= max_retries self)%Z ->
  (0 <= base_delay self)%Q ->
  (forall j, jitter j <= 1)%Q ->
  (total (sleeps (snd (retry_with_backoff self func jitter)))
   <= base_delay self * inject_Z (2 ^ max_retries self - 1)
      + inject_Z (max_retries self))%Q.
Proof.
  intros Hmax Hb Hj. unfold retry_with_backoff.
  replace (Z.to_nat (max_retries self + 1))
    with (S (Z.to_nat (max_retries self))) by lia.
  pose proof (retry_loop_total_sleep self func jitter
                (Z.to_nat (max_retries self)) 0 ltac:(lia) Hb Hj) as H.
  change (2 ^ Z.of_nat 0)%Z with 1%Z in H.
  now rewrite Z.sub_0_r in H.
Qed.

Lemma retry_total_backoff_bounded_witness :
  (total (sleeps (snd (retry_with_backoff three_retries always_raises full)))
   <= 10)%Q.
Proof.
  assert (Hj : forall j, (full j <= 1)%Q) by (intros j; apply Qle_refl).
  assert (Hmax : (0 <= max_retries three_retries)%Z) by (vm_compute; discriminate).
  assert (Hb : (0 <= base_delay three_retries)%Q) by (vm_compute; discriminate).
  exact (retry_total_backoff_bounded three_retries always_raises full
           Hmax Hb Hj).
Defined.

End RetryMoreClaims.

(** ** More on the scraping methods *)

Section ScrapeMore.

Variable installed : dependency -> bool.

(** X5: When the optional module of the variant is there and the [try] block
    ends without an exception, [scrape] returns the text of the response
    as it is, also when closing the browser fails afterwards. *)
Theorem scrape_returns_response_text (t : transport) (v : variant)
    (url : str) (text : str) :
  unavailable installed v = false ->
  body_result t = Return text ->
  fst (scrape installed t v url) = Return (Some text).
Proof.
  intros Hav Hbody. unfold scrape. rewrite Hav.
  destruct (guarded_body_returns t v url) as (r & tr & Hg & _ & Hok).
  destruct (scrape_cleanup_returns t v) as (tr' & Hc).
  rewrite Hg, Hc, (Hok text Hbody). unfold Logged.finally.
  now destruct (uses_driver v).
Qed.

(** X6: The browser is closed on every way out of [scrape], and only a
    browser that was started is closed: [driver.quit()] is called exactly
    when the variant drives a browser, its optional module is there and
    [webdriver.Chrome] had returned a driver, whether the page was
    fetched or not. *)
Theorem scrape_quits_started_driver (t : transport) (v : variant) (url : str) :
  In (DriverQuit v) (snd (scrape installed t v url))
  <-> unavailable installed v = false
      /\ uses_driver v = true
      /\ driver_started t = true.
Proof.
  unfold scrape, scrape_cleanup, scrape_body.
  destruct (unavailable installed v), (uses_driver v);
    destruct t as [[text|e] [|] [[]|e']]; simpl;
    intuition (try discriminate; try congruence).
Qed.

End ScrapeMore.

Lemma scrape_returns_response_text_witness :
  fst (scrape (fun _ => true) delivered SeleniumStealthMethod
         (lit "https://example.com"))
  = Return (Some upper_div).
Proof.
  apply (scrape_returns_response_text (fun _ => true) delivered
           SeleniumStealthMethod (lit "https://example.com") upper_div);
    reflexivity.
Defined.

(** ** More on the race *)

Section SequentialMore.

Variable cfg : config.

Lemma sequential_loop_first_usable (i : nat) (ms : list ScrapingMethod) :
  fst (sequential_loop cfg i ms)
  = match find (usable (retry_mechanism cfg)) ms with
    | Some m => returned_content (retry_outcome (retry_mechanism cfg) m)
    | None => None
    end.
Proof.
  revert i. induction ms as [|m ms IH]; intros i; [reflexivity|].
  cbn [sequential_loop find]. unfold usable at 1.
  pose proof (retried_outcome cfg i m) as Ho.
  destruct (retried cfg i m) as [o tr]. cbn [fst] in Ho. rewrite <- Ho.
  destruct o as [c|e]; cbn [fst].
  - destruct (is_valid_content c); [now rewrite <- Ho|].
    specialize (IH (S i)).
    now destruct (sequential_loop cfg (S i) ms).
  - specialize (IH (S i)).
    now destruct (sequential_loop cfg (S i) ms).
Qed.

Lemma usable_returned_valid (m : ScrapingMethod) :
  usable (retry_mechanism cfg) m = true ->
  is_valid_content
    (returned_content (retry_outcome (retry_mechanism cfg) m)) = true.
Proof.
  unfold usable.
  now destruct (retry_outcome (retry_mechanism cfg) m).
Qed.

Lemma sequential_loop_valid (i : nat) (ms : list ScrapingMethod) :
  is_valid_content (fst (sequential_loop cfg i ms))
  = existsb (usable (retry_mechanism cfg)) ms.
Proof.
  rewrite sequential_loop_first_usable.
  induction ms as [|m ms IH]; [reflexivity|].
  cbn [find existsb].
  destruct (usable (retry_mechanism cfg) m) eqn:Hu; [|exact IH].
  now apply usable_returned_valid.
Qed.

Lemma sequential_loop_none (i : nat) (ms : list ScrapingMethod) :
  fst (sequential_loop cfg i ms) = None
  <-> existsb (usable (retry_mechanism cfg)) ms = false.
Proof.
  rewrite <- (sequential_loop_valid i ms). split.
  - now intros ->.
  - rewrite sequential_loop_first_usable.
    destruct (find (usable (retry_mechanism cfg)) ms) as [m|] eqn:Hf;
      [|reflexivity].
    apply find_some in Hf as [_ Hu].
    rewrite (usable_returned_valid m Hu). discriminate.
Qed.

Lemma existsb_false_Forall (A : Type) (f : A -> bool) (l : list A) :
  existsb f l = false -> Forall (fun x => f x = false) l.
Proof.
  induction l as [|a l IH]; simpl; [constructor|].
  intros H. apply orb_false_iff in H as [Ha Hl]. constructor; auto.
Qed.

End SequentialMore.

(** X7: Sequential mode returns what the retry loop of the first usable
    method of the list returned, and [None] when no method is usable; so
    what it returns validates exactly when some method is usable. *)
Theorem sequential_returns_first_usable (cfg : config) :
  fst (_scrape_sequential cfg)
  = match find (usable (retry_mechanism cfg)) (methods cfg) with
    | Some m => returned_content (retry_outcome (retry_mechanism cfg) m)
    | None => None
    end
  /\ is_valid_content (fst (_scrape_sequential cfg))
     = existsb (usable (retry_mechanism cfg)) (methods cfg).
Proof.
  unfold _scrape_sequential. split.
  - apply sequential_loop_first_usable.
  - apply sequential_loop_valid.
Qed.

Section ConcurrentMore.

Variable cfg : config.

Lemma on_course_update (st st' : state) (i : nat) (m : ScrapingMethod)
    (p' : phase) :
  (forall j mj, nth_error (methods cfg) j = Some mj ->
                on_course cfg j mj (phases st j)) ->
  nth_error (methods cfg) i = Some m ->
  (forall j, phases st' j = if j =? i then p' else phases st j) ->
  on_course cfg i m p' ->
  forall j mj, nth_error (methods cfg) j = Some mj ->
               on_course cfg j mj (phases st' j).
Proof.
  intros Hall Hm Hph Hp' j mj Hj. rewrite Hph.
  destruct (Nat.eqb_spec j i) as [->|Hne].
  - rewrite Hm in Hj. injection Hj as <-. exact Hp'.
  - now apply Hall.
Qed.

Lemma transition_on_course (st st' : state) :
  (forall j mj, nth_error (methods cfg) j = Some mj ->
                on_course cfg j mj (phases st j)) ->
  transition cfg st st' ->
  forall j mj, nth_error (methods cfg) j = Some mj ->
               on_course cfg j mj (phases st' j).
Proof.
  intros Hall H.
  destruct H as [i m Hm Hp Hcap Ht|i m Hm Hp Hcap Ht|i m k Hm Hp
                |i m r k v Hm Hp Hit|i m r k e Hm Hp Hit|i m r k d Hm Hp Hit
                |i m r k d Hm Hp|i m c Hm Hp Hv|i m c Hm Hp Hv|i Hi Hp Ht].
  - apply (on_course_update st _ i m (Done None)); auto. exact I.
  - apply (on_course_update st _ i m
             (InLoop (Z.to_nat (max_retries (retry_mechanism cfg) + 1)) 0));
      auto. reflexivity.
  - apply (on_course_update st _ i m (Retrieved None)); auto.
    specialize (Hall i m Hm). now rewrite Hp in Hall.
  - apply (on_course_update st _ i m (Retrieved v)); auto.
    specialize (Hall i m Hm). rewrite Hp in Hall.
    unfold on_course in *. now rewrite <- Hall, retry_loop_step, Hit.
  - apply (on_course_update st _ i m (Done None)); auto. exact I.
  - apply (on_course_update st _ i m (Sleeping r k d)); auto.
    specialize (Hall i m Hm). rewrite Hp in Hall.
    unfold on_course in *. now rewrite <- Hall, retry_loop_step, Hit.
  - apply (on_course_update st _ i m (InLoop r (S k))); auto.
    specialize (Hall i m Hm). now rewrite Hp in Hall.
  - apply (on_course_update st _ i m (Done c)); auto.
    + intros j. simpl. now rewrite commit_phases.
    + exact I.
  - apply (on_course_update st _ i m (Done None)); auto. exact I.
  - intros j mj Hj. simpl. destruct (Nat.eqb_spec j i); [exact I | auto].
Qed.

Lemma transition_keeps_filled (st st' : state) :
  truthy (content (slot st)) = true -> transition cfg st st' ->
  truthy (content (slot st')) = true.
Proof.
  intros Ht H. now rewrite (transition_frozen cfg st st' Ht H).
Qed.

Lemma unusable_outcome (i : nat) (m : ScrapingMethod) :
  (exists e, fst (retried cfg i m) = Raise e)
  \/ (exists c, fst (retried cfg i m) = Return c
                /\ is_valid_content c = false) ->
  usable (retry_mechanism cfg) m = false.
Proof.
  unfold usable. rewrite <- (retried_outcome cfg i m).
  intros [[e ->]|(c & -> & Hc)]; [reflexivity | exact Hc].
Qed.

Lemma transition_sound (st st' : state) :
  sound_race cfg st -> transition cfg st st' -> sound_race cfg st'.
Proof.
  intros (Hcourse & Hwon & Hsrc) H.
  split; [now apply (transition_on_course st st')|].
  split.
  - (* a usable method whose task has ended leaves a filled slot *)
    intros j mj Hj Hterm Hus.
    assert (Hold : terminal (phases st j) = true ->
                   truthy (content (slot st')) = true).
    { intros Hterm0. apply (transition_keeps_filled st st'); [|exact H].
      now apply (Hwon j mj). }
    destruct H as [i m Hm Hp Hcap Ht|i m Hm Hp Hcap Ht|i m k Hm Hp
                  |i m r k v Hm Hp Hit|i m r k e Hm Hp Hit
                  |i m r k d Hm Hp Hit|i m r k d Hm Hp
                  |i m c Hm Hp Hv|i m c Hm Hp Hv|i Hi Hp Ht];
      cbn [phases set_phase say slot] in Hterm |- *;
      rewrite ?commit_phases in Hterm;
      (destruct (Nat.eqb_spec j i) as [->|Hne]; [|now apply Hold]);
      try discriminate Hterm; try exact Ht.
    + (* the last attempt raised *)
      exfalso. rewrite Hm in Hj. injection Hj as <-.
      specialize (Hcourse i m Hm). rewrite Hp in Hcourse.
      unfold on_course in Hcourse. rewrite retry_loop_step, Hit in Hcourse.
      rewrite (unusable_outcome i m) in Hus; [discriminate|].
      left. exists e. now rewrite <- Hcourse.
    + (* validated: the slot is filled now if it was not *)
      unfold commit. destruct (truthy (content (slot st))) eqn:Ht.
      * exact Ht.
      * simpl. now apply valid_truthy.
    + (* rejected *)
      exfalso. rewrite Hm in Hj. injection Hj as <-.
      specialize (Hcourse i m Hm). rewrite Hp in Hcourse.
      rewrite (unusable_outcome i m) in Hus; [discriminate|].
      right. exists c. split; [now rewrite <- Hcourse | exact Hv].
  - (* the slot holds what its winner retrieved *)
    destruct H as [i m Hm Hp Hcap Ht|i m Hm Hp Hcap Ht|i m k Hm Hp
                  |i m r k v Hm Hp Hit|i m r k e Hm Hp Hit
                  |i m r k d Hm Hp Hit|i m r k d Hm Hp
                  |i m c Hm Hp Hv|i m c Hm Hp Hv|i Hi Hp Ht];
      cbn [log set_phase say slot];
      try exact Hsrc;
      try (destruct (content (slot st)) as [c0|]; [|exact I];
           destruct Hsrc as (Hv0 & i0 & m0 & Hm0 & Hr0 & Hw0 & Hin0);
           split; [exact Hv0|]; exists i0, m0; repeat split; try assumption;
           apply in_or_app; now left).
    (* the commit *)
    unfold commit.
    destruct (content (slot st)) as [c0|] eqn:Hc0.
    + destruct Hsrc as (Hv0 & Hrest).
      rewrite (valid_truthy _ Hv0). cbn [negb]. rewrite Hc0. now split.
    + cbn [truthy negb slot content log say].
      destruct c as [c|]; [|discriminate].
      split; [exact Hv|]. exists i, m.
      specialize (Hcourse i m Hm). rewrite Hp in Hcourse.
      repeat split; try assumption.
      * now rewrite <- Hcourse.
      * apply in_or_app. right. now left.
Qed.

Lemma reachable_sound (st : state) : reachable cfg st -> sound_race cfg st.
Proof.
  intros [schedule ->].
  apply (run_invariant cfg (sound_race cfg)).
  - apply transition_sound.
  - repeat split. intros i m _ Hterm. discriminate.
Qed.

End ConcurrentMore.

Section ConcurrentResults.

Variable cfg : config.

(** What a completed race returns, read off its last state. *)
Lemma concurrent_result (schedule : list action) (r : option str)
    (tr : list race_event) :
  _scrape_concurrent cfg schedule = Some (Return r, tr) ->
  finished cfg (run cfg schedule submitted) = true
  /\ (r, tr) = handle_results cfg (run cfg schedule submitted).
Proof.
  unfold _scrape_concurrent.
  destruct (max_workers cfg =? 0); [discriminate|].
  destruct (finished cfg (run cfg schedule submitted)); [|discriminate].
  destruct (handle_results cfg (run cfg schedule submitted)) as [r' tr'].
  now intros [= <- <-].
Qed.

Lemma concurrent_valid (schedule : list action) (r : option str)
    (tr : list race_event) :
  _scrape_concurrent cfg schedule = Some (Return r, tr) ->
  is_valid_content r = existsb (usable (retry_mechanism cfg)) (methods cfg).
Proof.
  intros Hrun.
  destruct (existsb (usable (retry_mechanism cfg)) (methods cfg)) eqn:Hex.
  - destruct (concurrent_result schedule r tr Hrun) as [Hfin Hres].
    set (st := run cfg schedule submitted) in *.
    assert (Hsound : sound_race cfg st).
    { apply reachable_sound. now exists schedule. }
    destruct Hsound as (_ & Hwon & Hsrc).
    apply existsb_exists in Hex as (m & Hin & Hus).
    apply In_nth_error in Hin as [i Hi].
    assert (Hterm : terminal (phases st i) = true).
    { unfold finished in Hfin. rewrite forallb_forall in Hfin.
      apply Hfin. now apply (task_index cfg i m). }
    pose proof (Hwon i m Hi Hterm Hus) as Ht.
    unfold handle_results in Hres. rewrite Ht in Hres.
    injection Hres as -> _.
    destruct (content (slot st)) as [c|]; [|discriminate].
    now destruct Hsrc.
  - apply existsb_false_Forall in Hex.
    destruct (exhausted_concurrent cfg Hex schedule r tr Hrun) as [-> _].
    reflexivity.
Qed.

End ConcurrentResults.

(** X8: Both modes succeed on the same races.  However the tasks interleave,
    what a completed concurrent race returns validates exactly when some
    method of the list is usable, and it is [None] exactly when
    sequential mode returns [None] for the same methods. *)
Theorem concurrent_succeeds_like_sequential (cfg : config)
    (schedule : list action) (r : option str) (tr : list race_event) :
  _scrape_concurrent cfg schedule = Some (Return r, tr) ->
  is_valid_content r = existsb (usable (retry_mechanism cfg)) (methods cfg)
  /\ (r = None <-> fst (_scrape_sequential cfg) = None).
Proof.
  intros Hrun. pose proof (concurrent_valid cfg schedule r tr Hrun) as Hv.
  split; [exact Hv|].
  unfold _scrape_sequential.
  rewrite (sequential_loop_none cfg 1 (methods cfg)), <- Hv. split.
  - now intros ->.
  - intros Hinv.
    destruct (existsb (usable (retry_mechanism cfg)) (methods cfg)) eqn:Hex;
      [congruence|].
    apply existsb_false_Forall in Hex.
    now destruct (exhausted_concurrent cfg Hex schedule r tr Hrun).
Qed.

Lemma concurrent_succeeds_like_sequential_witness :
  is_valid_content (Some long_text) = true
  /\ (Some long_text = None <-> fst (_scrape_sequential photo_finish) = None).
Proof.
  assert (H : exists tr,
             _scrape_concurrent photo_finish (second_wins ++ [Run 0])
             = Some (Return (Some long_text), tr)).
  { eexists. vm_compute. reflexivity. }
  destruct H as [tr H].
  destruct (concurrent_succeeds_like_sequential photo_finish
              (second_wins ++ [Run 0]) (Some long_text) tr H) as [Hv Hiff].
  split; [|exact Hiff].
  rewrite Hv. vm_compute. reflexivity.
Defined.

(** X9: The content a concurrent race returns is the one the retry loop of
    the announced winner returned: the name in the success line is the
    name of a method of the list, and the log shows the commit of that
    method with that content. *)
Theorem concurrent_returns_winner_content (cfg : config)
    (schedule : list action) (c : str) (tr : list race_event) :
  _scrape_concurrent cfg schedule = Some (Return (Some c), tr) ->
  exists i m,
    nth_error (methods cfg) i = Some m
    /\ retry_outcome (retry_mechanism cfg) m = Return (Some c)
    /\ In (FirstSuccess i (Some c)) tr
    /\ In (ConcurrentSuccess (Some (name m))) tr.
Proof.
  intros Hrun.
  destruct (concurrent_result cfg schedule (Some c) tr Hrun) as [Hfin Hres].
  set (st := run cfg schedule submitted) in *.
  assert (Hsound : sound_race cfg st).
  { apply reachable_sound. now exists schedule. }
  destruct Hsound as (_ & _ & Hsrc).
  unfold handle_results in Hres.
  destruct (truthy (content (slot st))); [|discriminate].
  injection Hres as Hc ->. rewrite <- Hc in Hsrc.
  destruct Hsrc as (_ & i & m & Hm & Hr & Hw & Hin).
  exists i, m. split; [exact Hm|]. split.
  - now rewrite <- (retried_outcome cfg i m).
  - split.
    + apply in_or_app. now left.
    + apply in_or_app. right. left. now rewrite Hw.
Qed.

Lemma concurrent_returns_winner_content_witness :
  exists i m,
    nth_error (methods photo_finish) i = Some m
    /\ retry_outcome (retry_mechanism photo_finish) m = Return (Some long_text).
Proof.
  assert (H : exists tr,
             _scrape_concurrent photo_finish (second_wins ++ [Run 0])
             = Some (Return (Some long_text), tr)).
  { eexists. vm_compute. reflexivity. }
  destruct H as [tr H].
  destruct (concurrent_returns_winner_content photo_finish
              (second_wins ++ [Run 0]) long_text tr H)
    as (i & m & Hm & Hr & _).
  exists i, m. split; [exact Hm | exact Hr].
Defined.

Section Saving.

Variable cfg : config.








End Saving.



Section Workers.

Variable cfg : config.






End Workers.


(** The bound is reached: with thirteen methods the ninth task cannot
    start while the first eight are running. *)
Remark ninth_task_waits :
  active crowd (run crowd (map Run (seq 0 9)) submitted) = 8
  /\ phases (run crowd (map Run (seq 0 9)) submitted) 8 = Pending.
Proof. vm_compute. split; reflexivity. Qed.


Section Cancelled.

Variable cfg : config.

Lemma transition_untouched (i : nat) (st st' : state) :
  untouched i st -> transition cfg st st' -> untouched i st'.
Proof.
  intros Hu H. unfold untouched in *.
  destruct H as [i0 m Hm Hp Hcap Ht|i0 m Hm Hp Hcap Ht|i0 m k Hm Hp
                |i0 m r k v Hm Hp Hit|i0 m r k e Hm Hp Hit
                |i0 m r k d Hm Hp Hit|i0 m r k d Hm Hp
                |i0 m c Hm Hp Hv|i0 m c Hm Hp Hv|i0 Hi Hp Ht];
    cbn [phases slot log say set_phase];
    rewrite ?commit_phases, ?retry_events_app, ?commit_retry_events;
    cbn [retry_events flat_map app];
    (destruct (Nat.eqb_spec i i0) as [Heq|Hne];
     [ subst i0; rewrite Hp in Hu; rewrite ?Nat.eqb_refl
     | rewrite ?(proj2 (Nat.eqb_neq i0 i) (not_eq_sym Hne)) ]);
    rewrite ?app_nil_r; try exact I; try exact Hu; try (now split).
  (* a commit by another task: a filled slot stays filled *)
  destruct (phases st i); try exact Hu.
  destruct Hu as [Hev Ht]. split; [exact Hev|].
  now rewrite commit_frozen.
Qed.

End Cancelled.

(** X13: A task is cancelled only once a result is committed, and a cancelled
    task has never called its method: the log shows no attempt and no
    sleep of its retry loop. *)
Theorem cancelled_task_never_called (cfg : config) (schedule : list action)
    (i : nat) :
  phases (run cfg schedule submitted) i = Cancelled ->
  truthy (content (slot (run cfg schedule submitted))) = true
  /\ retry_events i (log (run cfg schedule submitted)) = [].
Proof.
  intros Hc.
  assert (Hu : untouched i (run cfg schedule submitted)).
  { apply (run_invariant cfg (untouched i)).
    - apply transition_untouched.
    - reflexivity. }
  unfold untouched in Hu. rewrite Hc in Hu. now destruct Hu.
Qed.

Lemma cancelled_task_never_called_witness :
  truthy (content (slot (run photo_finish [Run 0; Run 0; Run 0; Cancel 1]
                          submitted))) = true
  /\ retry_events 1
       (log (run photo_finish [Run 0; Run 0; Run 0; Cancel 1] submitted))
     = [].
Proof.
  apply (cancelled_task_never_called photo_finish
           [Run 0; Run 0; Run 0; Cancel 1] 1).
  vm_compute. reflexivity.
Defined.

(** ** The URL validator *)

Section Trimmed.

Lemma lstrip_head (s : str) :
  match lstrip s with
  | [] => True
  | x :: _ => is_space x = false
  end.
Proof.
  induction s as [|c s IH]; simpl; [exact I|].
  destruct (is_space c) eqn:E; [exact IH | exact E].
Qed.

Lemma lstrip_fixed (x : ascii) (s : str) :
  is_space x = false -> lstrip (x :: s) = x :: s.
Proof. intros H. simpl. now rewrite H. Qed.

Lemma lstrip_fixed_inv (s : str) :
  lstrip s = s -> match s with [] => True | x :: _ => is_space x = false end.
Proof. intros H. pose proof (lstrip_head s) as Hh. now rewrite H in Hh. Qed.

Lemma lstrip_idempotent (s : str) : lstrip (lstrip s) = lstrip s.
Proof.
  pose proof (lstrip_head s) as H.
  destruct (lstrip s) as [|x t]; [reflexivity | now apply lstrip_fixed].
Qed.

Lemma strip_trimmed (s : str) : trimmed (strip s).
Proof.
  unfold trimmed, strip, rstrip. split.
  - (* the left end: the stripped string is a prefix of [lstrip s] *)
    pose proof (lstrip_head s) as Hh.
    destruct (rstrip_prefix (lstrip s)) as [r Hr]. unfold rstrip in Hr.
    destruct (rev (lstrip (rev (lstrip s)))) as [|x t] eqn:E; [reflexivity|].
    rewrite Hr in Hh. simpl in Hh. now apply lstrip_fixed.
  - rewrite rev_involutive. apply lstrip_idempotent.
Qed.

Lemma trimmed_strip (s : str) : trimmed s -> strip s = s.
Proof.
  intros [Hl Hr]. unfold strip, rstrip.
  now rewrite Hl, Hr, rev_involutive.
Qed.

Lemma trimmed_https (s : str) : trimmed s -> trimmed (lit "https://" ++ s).
Proof.
  intros [Hl Hr]. split; [reflexivity|].
  rewrite rev_app_distr.
  apply lstrip_fixed_inv in Hr.
  destruct (rev s) as [|y t]; [reflexivity|].
  cbn [app]. now apply lstrip_fixed.
Qed.

End Trimmed.

Section URLValidatorFacts.

Variable netloc : str -> outcome str.

Lemma validate_inv (url u : str) :
  validate_and_format_url netloc url = Return u ->
  url <> []
  /\ u = (if startswith_any [lit "http://"; lit "https://"] (strip url)
          then strip url else lit "https://" ++ strip url)
  /\ exists n, netloc u = Return n /\ n <> [].
Proof.
  unfold validate_and_format_url.
  destruct url as [|c url]; [discriminate|]. cbn [truthy negb].
  set (s := strip (c :: url)).
  destruct (startswith_any [lit "http://"; lit "https://"] s); cbn [negb].
  - destruct (netloc s) as [[|x n]|e] eqn:Hn; try discriminate.
    intros [= <-]. split; [discriminate|]. split; [reflexivity|].
    exists (x :: n). split; [exact Hn | discriminate].
  - destruct (netloc (lit "https://" ++ s)) as [[|x n]|e] eqn:Hn;
      try discriminate.
    intros [= <-]. split; [discriminate|]. split; [reflexivity|].
    exists (x :: n). split; [exact Hn | discriminate].
Qed.

Lemma validated_shape (url u : str) :
  validate_and_format_url netloc url = Return u ->
  startswith_any [lit "http://"; lit "https://"] u = true /\ strip u = u.
Proof.
  intros H. destruct (validate_inv url u H) as (_ & -> & _).
  destruct (startswith_any [lit "http://"; lit "https://"] (strip url)) eqn:E.
  - split; [exact E|]. apply trimmed_strip, strip_trimmed.
  - split.
    + unfold startswith_any. cbn [existsb].
      rewrite (startswith_app (lit "https://") (strip url)).
      apply orb_true_r.
    + apply trimmed_strip, trimmed_https, strip_trimmed.
Qed.

End URLValidatorFacts.

(** X14: A URL that passes the validator has no whitespace at either end and
    starts with [http://] or [https://]: it is the stripped input,
    with [https://] put in front exactly when neither prefix was there;
    the empty string never passes. *)
Theorem validated_url_has_scheme (netloc : str -> outcome str) (url u : str) :
  validate_and_format_url netloc url = Return u ->
  url <> []
  /\ u = (if startswith_any [lit "http://"; lit "https://"] (strip url)
          then strip url else lit "https://" ++ strip url)
  /\ startswith_any [lit "http://"; lit "https://"] u = true
  /\ strip u = u.
Proof.
  intros H. destruct (validate_inv netloc url u H) as (Hne & Hu & _).
  destruct (validated_shape netloc url u H) as [Hs Ht].
  now repeat split.
Qed.

Lemma validated_url_has_scheme_witness :
  lit "https://example.com/a"
  = (if startswith_any [lit "http://"; lit "https://"]
          (strip (lit "  example.com/a "))
     then strip (lit "  example.com/a ")
     else lit "https://" ++ strip (lit "  example.com/a "))
  /\ strip (lit "https://example.com/a") = lit "https://example.com/a".
Proof.
  destruct (validated_url_has_scheme sample_netloc (lit "  example.com/a ")
              (lit "https://example.com/a") eq_refl) as (_ & Hu & _ & Ht).
  split; [exact Hu | exact Ht].
Defined.

(** X15: The validator is idempotent: a URL it returns passes again and comes
    back unchanged, so no second [https://] is ever put in front. *)
Theorem validate_url_idempotent (netloc : str -> outcome str) (url u : str) :
  validate_and_format_url netloc url = Return u ->
  validate_and_format_url netloc u = Return u.
Proof.
  intros H.
  destruct (validate_inv netloc url u H) as (_ & _ & n & Hn & Hne).
  destruct (validated_shape netloc url u H) as [Hs Ht].
  unfold validate_and_format_url.
  assert (Hu : u <> []).
  { intros ->. discriminate Hs. }
  destruct u as [|c u]; [contradiction|]. cbn [truthy negb].
  rewrite Ht, Hs. cbn [negb]. rewrite Hn.
  destruct n; [contradiction | reflexivity].
Qed.

Lemma validate_url_idempotent_witness :
  validate_and_format_url sample_netloc (lit "https://example.com/a")
  = Return (lit "https://example.com/a").
Proof.
  apply (validate_url_idempotent sample_netloc (lit "  example.com/a ")).
  reflexivity.
Defined.

(** ** The command line *)

Section ParseFacts.

Lemma str_eqb_eq (x y : str) : str_eqb x y = true <-> x = y.
Proof.
  unfold str_eqb. destruct (list_eq_dec ascii_dec x y); split;
    congruence.
Qed.

Lemma is_in_In (x : str) (l : list str) : is_in x l = true <-> In x l.
Proof.
  unfold is_in. rewrite existsb_exists. split.
  - intros (y & Hy & Heq). apply str_eqb_eq in Heq. now subst.
  - intros H. exists x. split; [exact H | now apply str_eqb_eq].
Qed.

(** The four flags start with a dash, and no flag is of both kinds. *)
Lemma flag_has_dash (arg : str) :
  is_in arg [lit "--aggressive"; lit "-a"] = true
  \/ is_in arg [lit "--sequential"; lit "-s"] = true ->
  startswith (lit "-") arg = true.
Proof.
  rewrite !is_in_In. simpl.
  intros [[<-|[<-|[]]]|[<-|[<-|[]]]]; reflexivity.
Qed.

Lemma aggressive_not_sequential (arg : str) :
  is_in arg [lit "--aggressive"; lit "-a"] = true ->
  is_in arg [lit "--sequential"; lit "-s"] = false.
Proof.
  rewrite is_in_In. simpl. intros [<-|[<-|[]]]; reflexivity.
Qed.

Lemma parse_options_modes (rest : list str) (out : option str)
    (ag conc : bool) :
  snd (fst (parse_options rest out ag conc))
  = ag || existsb (fun a => is_in a [lit "--aggressive"; lit "-a"]) rest
  /\ snd (parse_options rest out ag conc)
     = conc && negb (existsb (fun a => is_in a [lit "--sequential"; lit "-s"])
                       rest).
Proof.
  revert out ag conc. induction rest as [|arg rest IH]; intros out ag conc.
  - simpl. now rewrite orb_false_r, andb_true_r.
  - cbn [parse_options existsb].
    destruct (is_in arg [lit "--aggressive"; lit "-a"]) eqn:Ha.
    + rewrite (aggressive_not_sequential arg Ha).
      destruct (IH out true conc) as [-> ->].
      split; [now rewrite orb_true_r | reflexivity].
    + destruct (is_in arg [lit "--sequential"; lit "-s"]) eqn:Hs.
      * destruct (IH out ag false) as [-> ->].
        split; [reflexivity | now rewrite andb_false_r].
      * destruct (negb (startswith (lit "-") arg));
          [destruct (IH (Some arg) ag conc) as [-> ->]
          |destruct (IH out ag conc) as [-> ->]];
          split; reflexivity.
Qed.

Lemma last_cons_default (A : Type) (a d : A) (l : list A) :
  last (a :: l) d = last l a.
Proof.
  revert a d. induction l as [|b l IH]; intros a d; [reflexivity|].
  change (last (a :: b :: l) d) with (last (b :: l) d).
  now rewrite (IH b d), (IH b a).
Qed.

Lemma last_map_some (A : Type) (l : list A) (a : A) :
  last (map Some l) (Some a) = Some (last l a).
Proof.
  revert a. induction l as [|b l IH]; intros a; [reflexivity|].
  cbn [map]. rewrite !last_cons_default. apply IH.
Qed.

Lemma parse_options_output (rest : list str) (out : option str)
    (ag conc : bool) :
  fst (fst (parse_options rest out ag conc))
  = last (map Some (filter (fun a => negb (startswith (lit "-") a)) rest)) out.
Proof.
  revert out ag conc. induction rest as [|arg rest IH]; intros out ag conc;
    [reflexivity|].
  cbn [parse_options filter].
  destruct (is_in arg [lit "--aggressive"; lit "-a"]) eqn:Ha.
  { rewrite (flag_has_dash arg (or_introl Ha)). cbn [negb]. apply IH. }
  destruct (is_in arg [lit "--sequential"; lit "-s"]) eqn:Hs.
  { rewrite (flag_has_dash arg (or_intror Hs)). cbn [negb]. apply IH. }
  destruct (negb (startswith (lit "-") arg)).
  - cbn [map]. rewrite last_cons_default. apply IH.
  - apply IH.
Qed.

Lemma split_nonempty (sep : ascii) (s : str) : split sep s <> [].
Proof.
  destruct s as [|c t]; simpl; [discriminate|].
  destruct (Ascii.eqb c sep); [discriminate|].
  destruct (split sep t); discriminate.
Qed.

Lemma split_hd_no_sep (sep : ascii) (s : str) :
  Forall (fun c => c <> sep) (hd [] (split sep s)).
Proof.
  induction s as [|c t IH]; simpl; [constructor|].
  destruct (Ascii.eqb_spec c sep) as [|Hne]; [constructor|].
  destruct (split sep t) as [|h r]; simpl in *.
  - repeat constructor. exact Hne.
  - constructor; assumption.
Qed.

Lemma replace_dot_flat (s : str) :
  Forall (fun c => c <> "/"%char) s ->
  Forall (fun c => c <> "/"%char /\ c <> "."%char)
    (replace (lit ".") (lit "_") s).
Proof.
  change (replace (lit ".") (lit "_") s)
    with (replace_from (lit ".") (lit "_") 0 s).
  induction 1 as [|c t Hc _ IH]; [constructor|].
  cbn [replace_from startswith lit String.list_ascii_of_string].
  destruct (Ascii.eqb_spec "."%char c) as [<-|Hne]; cbn [andb].
  - constructor; [split; discriminate | exact IH].
  - constructor; [split; [exact Hc | congruence] | exact IH].
Qed.

End ParseFacts.

(** X16: Of the two modes [parse_arguments] returns, the aggressive one is on
    whatever the arguments are; the concurrent one is off exactly when
    [--sequential] or [-s] stands somewhere after the URL. *)
Theorem parse_arguments_modes (timestamp : str) (args : list str) :
  snd (fst (fst (parse_arguments timestamp args))) = true
  /\ snd (fst (parse_arguments timestamp args))
     = negb (existsb (fun a => is_in a [lit "--sequential"; lit "-s"])
               (skipn 2 args)).
Proof.
  unfold parse_arguments.
  destruct args as [|prog [|url rest]]; [now split | now split|].
  cbn [skipn].
  pose proof (parse_options_modes rest None true true) as [Ha Hc].
  destruct (parse_options rest None true true) as [[out ag] conc].
  cbn [fst snd] in *. split; [exact Ha | exact Hc].
Qed.

Lemma parse_arguments_output (timestamp : str)
    (prog url : str) (rest : list str) :
  let given :=
    last (filter (fun a => negb (startswith (lit "-") a)) rest) [] in
  let output_file :=
    snd (fst (fst (fst (parse_arguments timestamp (prog :: url :: rest))))) in
  output_file
  = Some (match given with
          | [] => domain_of url ++ lit "_single_page_" ++ timestamp
                  ++ lit ".html"
          | _ :: _ => given
          end)
  /\ truthy output_file = true.
Proof.
  cbv zeta. unfold parse_arguments.
  pose proof (parse_options_output rest None true true) as Hout.
  destruct (parse_options rest None true true) as [[out ag] conc].
  cbn [fst snd] in *. subst out.
  set (cands := filter (fun a => negb (startswith (lit "-") a)) rest).
  assert (Hlast : last (map Some cands) None
                  = match cands with
                    | [] => None
                    | _ :: _ => Some (last cands [])
                    end).
  { destruct cands as [|a l]; [reflexivity|].
    cbn [map]. rewrite !last_cons_default. apply last_map_some. }
  rewrite Hlast.
  destruct cands as [|a l].
  - cbn [truthy negb last]. split; [reflexivity|].
    destruct (domain_of url); reflexivity.
  - destruct (last (a :: l) []) as [|x g]; cbn [truthy negb].
    + split; [reflexivity|]. destruct (domain_of url); reflexivity.
    + split; reflexivity.
Qed.

(** X17: When a URL is given, the output file [parse_arguments] returns is
    never empty: it is the last argument after the URL that does not
    start with a dash, if there is one and it is not the empty string,
    and the generated name otherwise. *)
Theorem parse_arguments_output_file (timestamp : str)
    (prog url : str) (rest : list str) :
  let given :=
    last (filter (fun a => negb (startswith (lit "-") a)) rest) [] in
  let output_file :=
    snd (fst (fst (fst (parse_arguments timestamp (prog :: url :: rest))))) in
  output_file
  = Some (match given with
          | [] => domain_of url ++ lit "_single_page_" ++ timestamp
                  ++ lit ".html"
          | _ :: _ => given
          end)
  /\ truthy output_file = true.
Proof. apply parse_arguments_output. Qed.

(** X18: The domain part of the generated file name holds no slash and no
    dot, whatever the URL; so the generated name has no directory part
    of its own. *)
Theorem domain_of_is_flat (url : str) :
  Forall (fun c => c <> "/"%char /\ c <> "."%char) (domain_of url).
Proof.
  unfold domain_of. apply replace_dot_flat. apply split_hd_no_sep.
Qed.

Section RunFacts.

Variable netloc : str -> outcome str.
Variable timestamp : str.
Variable retry : RetryMechanism.
Variable methods_on : str -> list ScrapingMethod.
Variable jitters : nat -> nat -> Q.

Lemma parse_arguments_given (prog url : str) (rest : list str) :
  exists x f ag conc,
    parse_arguments timestamp (prog :: url :: rest)
    = ((Some url, Some (x :: f), ag, conc), false).
Proof.
  destruct (parse_arguments_output timestamp prog url rest) as [Hout Ht].
  unfold parse_arguments in *.
  destruct (parse_options rest None true true) as [[out ag] conc].
  cbn [fst snd] in *. rewrite Hout in Ht |- *.
  destruct (match last (filter (fun a => negb (startswith (lit "-") a)) rest) []
            with
            | [] => domain_of url ++ lit "_single_page_" ++ timestamp
                    ++ lit ".html"
            | _ :: _ => last (filter (fun a => negb (startswith (lit "-") a))
                                rest) []
            end) as [|x f]; [discriminate|].
  now exists x, f, ag, conc.
Qed.

Lemma parse_arguments_short (args : list str) :
  List.length args < 2 ->
  parse_arguments timestamp args = ((None, None, true, true), true).
Proof.
  destruct args as [|prog [|url rest]]; simpl; try reflexivity; lia.
Qed.

(** A race returns content exactly when some method is usable. *)
Lemma race_truthy (cfg : config) (concurrent : bool) (schedule : list action)
    (r : option str) (tr : list race_event) :
  scrape_website cfg concurrent schedule = Some (Return r, tr) ->
  truthy r = existsb (usable (retry_mechanism cfg)) (methods cfg).
Proof.
  unfold scrape_website. intros H.
  assert (Hv : is_valid_content r
               = existsb (usable (retry_mechanism cfg)) (methods cfg)
               /\ (existsb (usable (retry_mechanism cfg)) (methods cfg) = false
                   -> r = None)).
  { destruct concurrent.
    - split; [now apply (concurrent_valid cfg schedule r tr)|].
      intros Hex. apply existsb_false_Forall in Hex.
      now destruct (exhausted_concurrent cfg Hex schedule r tr H).
    - unfold _scrape_sequential in H.
      pose proof (sequential_loop_valid cfg 1 (methods cfg)) as Hval.
      pose proof (sequential_loop_none cfg 1 (methods cfg)) as Hnone.
      destruct (sequential_loop cfg 1 (methods cfg)) as [r' tr'].
      injection H as <- <-. cbn [fst] in *.
      split; [exact Hval | apply Hnone]. }
  destruct Hv as [Hval Hnone].
  destruct (existsb (usable (retry_mechanism cfg)) (methods cfg)).
  - now apply valid_truthy.
  - now rewrite Hnone.
Qed.



(** What [run] does, case by case. *)
Lemma run_cli_cases (args : list str) (schedule : list action)
    (code : nat) (log : list cli_event) :
  run_cli netloc timestamp retry methods_on jitters args schedule
  = Some (Return code, log) ->
  (code = 1 /\ (forall ev, In ev log -> ev = Usage)
   /\ (forall prog url rest, args = prog :: url :: rest -> url = []))
  \/ (exists prog url rest out ag conc e,
         args = prog :: url :: rest
         /\ parse_arguments timestamp args
            = ((Some url, Some out, ag, conc), false)
         /\ validate_and_format_url netloc url = Raise e
         /\ code = 1
         /\ log = [Activated url (Some out) ag conc; UrlError e; ScrapingFailed])
  \/ (exists prog url rest out ag conc u r tr,
         args = prog :: url :: rest
         /\ out <> []
         /\ parse_arguments timestamp args
            = ((Some url, Some out, ag, conc), false)
         /\ validate_and_format_url netloc url = Return u
         /\ scrape_website (scraper_config retry methods_on jitters u (Some out))
              conc schedule = Some (Return r, tr)
         /\ code = (if truthy r then 0 else 1)
         /\ log = Activated url (Some out) ag conc
                  :: (Starting_scrape u (List.length (methods_on u)) conc
                      :: map FromRace tr)
                  ++ (if truthy r then [Successful r] else [ScrapingFailed])).
Proof.
  unfold run_cli.
  destruct args as [|prog [|url rest]].
  - intros [= <- <-]. left. split; [reflexivity|]. split.
    + intros ev [<-|[]]. reflexivity.
    + discriminate.
  - intros [= <- <-]. left. split; [reflexivity|]. split.
    + intros ev [<-|[]]. reflexivity.
    + discriminate.
  - destruct (parse_arguments_given prog url rest) as (x & f & ag & conc & Hp).
    rewrite Hp.
    destruct url as [|y url].
    { intros [= <- <-]. left. split; [reflexivity|]. split.
      - intros ev [].
      - now intros ? ? ? [= _ <- _]. }
    unfold SinglePageScraper_scrape_website.
    destruct (validate_and_format_url netloc (y :: url)) as [u|e] eqn:Hv.
    + destruct (scrape_website
                  (scraper_config retry methods_on jitters u (Some (x :: f)))
                  conc schedule) as [[[r|e] tr]|] eqn:Hrace;
        try discriminate.
      right. right.
      exists prog, (y :: url), rest, (x :: f), ag, conc, u, r, tr.
      split; [reflexivity|]. split; [discriminate|].
      split; [reflexivity|]. split; [exact Hv|]. split; [exact Hrace|].
      cbn [truthy negb] in H.
      destruct (truthy r); injection H as <- <-; split; reflexivity.
    + destruct (is_ValueError e); [|discriminate].
      cbn [truthy]. intros [= <- <-]. right. left.
      exists prog, (y :: url), rest, (x :: f), ag, conc, e.
      repeat split; try reflexivity; assumption.
Qed.

End RunFacts.

(** X19: [run] exits with 0 or 1, and with 0 exactly when a URL was given,
    the URL passed the validator and some method of the scraper is
    usable for the validated URL, in sequential mode and, however the
    tasks interleave, in concurrent mode. *)
Theorem run_exit_code (netloc : str -> outcome str) (timestamp : str)
    (retry : RetryMechanism) (methods_on : str -> list ScrapingMethod)
    (jitters : nat -> nat -> Q) (args : list str) (schedule : list action)
    (code : nat) (log : list cli_event) :
  run_cli netloc timestamp retry methods_on jitters args schedule
  = Some (Return code, log) ->
  (code = 0 \/ code = 1)
  /\ (code = 0 <->
      exists prog url rest u,
        args = prog :: url :: rest
        /\ validate_and_format_url netloc url = Return u
        /\ existsb (usable retry) (methods_on u) = true).
Proof.
  intros H.
  destruct (run_cli_cases netloc timestamp retry methods_on jitters
              args schedule code log H)
    as [(-> & _ & Hurl)
       |[(prog & url & rest & out & ag & conc & e & -> & _ & Hv & -> & _)
        |(prog & url & rest & out & ag & conc & u & r & tr
          & -> & _ & _ & Hv & Hrace & -> & _)]].
  - split; [now right|]. split; [discriminate|].
    intros (prog & url & rest & u & Hargs & Hv & _).
    rewrite (Hurl prog url rest Hargs) in Hv. discriminate.
  - split; [now right|]. split; [discriminate|].
    intros (prog' & url' & rest' & u & [= _ <- _] & Hv' & _). congruence.
  - pose proof (race_truthy _ _ _ _ _ Hrace) as Ht. cbn in Ht.
    split; [destruct (truthy r); auto|]. split.
    + intros Hcode. exists prog, url, rest, u.
      split; [reflexivity|]. split; [exact Hv|].
      rewrite <- Ht. now destruct (truthy r).
    + intros (prog' & url' & rest' & u' & [= _ <- _] & Hv' & Hex).
      rewrite Hv in Hv'. injection Hv' as <-.
      now rewrite Ht, Hex.
Qed.

Lemma run_exit_code_witness :
  exists prog url rest u,
    busy_command = prog :: url :: rest
    /\ validate_and_format_url sample_netloc url = Return u
    /\ existsb (usable three_retries) (sample_methods u) = true.
Proof.
  assert (H : exists log,
             run_cli sample_netloc stamp three_retries sample_methods
               (fun _ => half) busy_command []
             = Some (Return 0, log)).
  { eexists. vm_compute. reflexivity. }
  destruct H as [log H].
  destruct (run_exit_code sample_netloc stamp three_retries sample_methods
              (fun _ => half) busy_command [] 0 log H) as [_ Hiff].
  apply Hiff. reflexivity.
Defined.



(** ** The preview *)



(** ** The cleaning statistics *)

Section Statistics.

Lemma dict_set_keys (k : str) (v : Z) (d : dict) :
  dict_has k d = true -> keys (dict_set k v d) = keys d.
Proof.
  unfold dict_has, keys. induction d as [|[k' v'] d IH]; simpl;
    [discriminate|].
  destruct (str_eqb k k'); [reflexivity|].
  intros H. simpl. f_equal. now apply IH.
Qed.

Lemma dict_has_keys (k : str) (d : dict) :
  dict_has k d = true <-> In k (keys d).
Proof.
  unfold dict_has, keys. induction d as [|[k' v'] d IH]; simpl.
  - split; [discriminate | contradiction].
  - destruct (str_eqb k k') eqn:E.
    + apply str_eqb_eq in E. subst. split; auto.
    + rewrite IH. split; [now right|].
      intros [->|H]; [|exact H].
      assert (Hrefl : str_eqb k k = true) by now apply str_eqb_eq.
      congruence.
Qed.

Lemma dict_get_set_same (k : str) (v : Z) (d : dict) :
  dict_get k (dict_set k v d) = Some v.
Proof.
  induction d as [|[k' v'] d IH]; simpl.
  - assert (Hrefl : str_eqb k k = true) by now apply str_eqb_eq.
    now rewrite Hrefl.
  - destruct (str_eqb k k') eqn:E; simpl; now rewrite E.
Qed.

Lemma dict_get_set_other (k k0 : str) (v : Z) (d : dict) :
  k0 <> k -> dict_get k0 (dict_set k v d) = dict_get k0 d.
Proof.
  intros Hne. induction d as [|[k' v'] d IH]; simpl.
  - destruct (str_eqb k0 k) eqn:E; [|reflexivity].
    apply str_eqb_eq in E. contradiction.
  - destruct (str_eqb k k') eqn:E; simpl.
    + apply str_eqb_eq in E. subst k'.
      destruct (str_eqb k0 k) eqn:E0; [|reflexivity].
      apply str_eqb_eq in E0. contradiction.
    + now rewrite IH.
Qed.

Lemma call_keys (stats : dict) (c : stat_call) :
  keys stats = keys CleaningStatistics_init ->
  keys (call stats c) = keys CleaningStatistics_init.
Proof.
  intros Hk.
  destruct c as [size|size|name|name value]; simpl;
    unfold set_original_size, set_cleaned_size, increment_stat, update_stat.
  - rewrite dict_set_keys; [exact Hk|].
    apply dict_has_keys. rewrite Hk. simpl. tauto.
  - rewrite dict_set_keys; [exact Hk|].
    apply dict_has_keys. rewrite Hk. simpl. tauto.
  - destruct (dict_has name stats) eqn:E; [|exact Hk].
    now rewrite dict_set_keys.
  - destruct (dict_has name stats) eqn:E; [|exact Hk].
    now rewrite dict_set_keys.
Qed.

Lemma after_calls_keys_from (calls : list stat_call) (stats : dict) :
  keys stats = keys CleaningStatistics_init ->
  keys (fold_left call calls stats) = keys CleaningStatistics_init.
Proof.
  revert stats. induction calls as [|c calls IH]; intros stats Hk;
    [exact Hk|].
  simpl. apply IH. now apply call_keys.
Qed.

End Statistics.

(** X22: Whatever is called on a [CleaningStatistics], its dictionary keeps
    the seven keys of [__init__], in their order: a name that is not
    among them is never added, its statistic reads 0, and incrementing
    or updating it changes nothing. *)
Theorem statistics_keys_fixed (calls : list stat_call) :
  keys (after_calls calls) = keys CleaningStatistics_init
  /\ (forall stat_name,
         ~ In stat_name (keys CleaningStatistics_init) ->
         get_stat stat_name (after_calls calls) = 0%Z
         /\ increment_stat stat_name (after_calls calls) = after_calls calls
         /\ forall value,
              update_stat stat_name value (after_calls calls)
              = after_calls calls).
Proof.
  assert (Hk : keys (after_calls calls) = keys CleaningStatistics_init).
  { now apply after_calls_keys_from. }
  split; [exact Hk|].
  intros name Hname.
  assert (Hhas : dict_has name (after_calls calls) = false).
  { destruct (dict_has name (after_calls calls)) eqn:E; [|reflexivity].
    apply dict_has_keys in E. rewrite Hk in E. contradiction. }
  unfold get_stat, increment_stat, update_stat. rewrite Hhas.
  unfold dict_has in Hhas.
  destruct (dict_get name (after_calls calls)); [discriminate|].
  now repeat split.
Qed.

(** X23: Incrementing a statistic that is there adds one to it and leaves
    every other statistic as it was; updating it stores the value given. *)
Theorem statistics_increment_one (stat_name : str) (stats : dict) :
  dict_has stat_name stats = true ->
  get_stat stat_name (increment_stat stat_name stats)
  = (get_stat stat_name stats + 1)%Z
  /\ (forall other, other <> stat_name ->
        get_stat other (increment_stat stat_name stats) = get_stat other stats)
  /\ (forall value,
        get_stat stat_name (update_stat stat_name value stats) = value).
Proof.
  intros Hhas. unfold increment_stat, update_stat. rewrite Hhas.
  split; [|split].
  - unfold get_stat at 1. now rewrite dict_get_set_same.
  - intros other Hne. unfold get_stat. now rewrite dict_get_set_other.
  - intros value. unfold get_stat. now rewrite dict_get_set_same.
Qed.

Lemma statistics_increment_one_witness :
  get_stat (lit "removed_scripts")
    (increment_stat (lit "removed_scripts")
       (after_calls [Increment_stat (lit "removed_scripts");
                     Increment_stat (lit "removed_widgets")]))
  = 2%Z.
Proof.
  destruct (statistics_increment_one (lit "removed_scripts")
              (after_calls [Increment_stat (lit "removed_scripts");
                            Increment_stat (lit "removed_widgets")]))
    as [H _].
  - reflexivity.
  - rewrite H. reflexivity.
Defined.
